(** * LotusCoder: the task orchestration core

    A shallow embedding of the agent registry
    ([backend/src/modules/agents/agent.registry.ts]), of the task wrapper
    [BaseAgent.processTask] ([backend/src/modules/agents/base/base-agent.ts])
    and of [AgentsService.executeAgentTask]
    ([backend/src/modules/agents/agents.service.ts]).

    Conventions of the embedding.
    - An [async] method is a computation in the monad [ST World]: it threads
      the world (registry map, environment tick, persistence and executor
      trace) and either resolves with a value or rejects with the message of
      the thrown [Error] (the code only ever reads [error.message]).
    - [Date.now()], [new Date()], [uuidv4()], [Math.random()], the repository
      and the executors are the environment: they are read through oracles
      indexed by the world's tick, which every such read advances.
    - Logger calls have no effect on control flow and are left out.
    - The calls of a batch ([executeTasks]) run together: each call is cut
      at its [await]s, and the order in which the suspended calls resume is
      a parameter of the model. *)

From stdpp Require Import gmap strings list fin_maps pretty.
From Stdlib Require Import ZArith.

Set Default Proof Using "Type".
Open Scope Z_scope.

(** ** Promise outcomes and the state-and-exception monad *)

Inductive Outcome (A : Type) : Type :=
| Resolved (a : A)
| Rejected (message : string).
Arguments Resolved {A} a.
Arguments Rejected {A} message.

Definition ST (S A : Type) : Type := S → Outcome A * S.

#[global] Instance ST_ret {S} : MRet (ST S) := λ A a s, (Resolved a, s).

#[global] Instance ST_bind {S} : MBind (ST S) := λ A B f m s,
  match m s with
  | (Resolved a, s') => f a s'
  | (Rejected e, s') => (Rejected e, s')
  end.

#[global] Instance ST_fmap {S} : FMap (ST S) := λ A B f m s,
  match m s with
  | (Resolved a, s') => (Resolved (f a), s')
  | (Rejected e, s') => (Rejected e, s')
  end.

(** [throw new Error(message)] *)
Definition throw {S A} (message : string) : ST S A := λ s, (Rejected message, s).

(** [try { body } catch (error) { handler(error.message) }] *)
Definition try_catch {S A} (body : ST S A) (handler : string → ST S A) : ST S A :=
  λ s, match body s with
       | (Resolved a, s') => (Resolved a, s')
       | (Rejected e, s') => handler e s'
       end.

(** A synchronous call that may throw. *)
Definition throwing {S A} (o : Outcome A) : ST S A := λ s, (o, s).

Definition get_state {S} : ST S S := λ s, (Resolved s, s).

(** A computation on the world run inside a block that also has a local
    variable of type [L]. *)
Definition lift {L S A} (m : ST S A) : ST (L * S) A := λ '(l, s),
  match m s with
  | (o, s') => (o, (l, s'))
  end.

(** Runs a block whose local variable starts as [init]. *)
Definition with_local {L S A} (init : L) (m : ST (L * S) A) : ST S A := λ s,
  match m (init, s) with
  | (o, (_, s')) => (o, s')
  end.

Definition get_local {L S} : ST (L * S) L := λ '(l, s), (Resolved l, (l, s)).
Definition set_local {L S} (l : L) : ST (L * S) unit := λ '(_, s), (Resolved (), (l, s)).

(** ** Data model *)

(** [interfaces/agent.interface.ts] *)
Record AgentConfig := {
  cfg_name : string;
  cfg_type : string;
  cfg_enabled : bool;
  cfg_role : string;
  cfg_description : string;
  cfg_timeout : Z;
  cfg_retryAttempts : Z;
  cfg_maxConcurrent : Z;
}.

(** [metadata] as [AgentRegistry.executeTask] builds it. *)
Record Metadata := {
  md_timestamp : string;
  md_requestId : string;
}.

(** [AgentExecution.status] *)
Inductive Status := queued | running | completed | failed | timeout.

#[global] Instance Status_eq_dec : EqDecision Status.
Proof. solve_decision. Defined.

(** [database/entities/agent-execution.entity.ts]; the columns the wrapper
    never touches ([metadata], [updatedAt]) are left out. *)
Record AgentExecution := {
  ae_id : string;
  ae_agentType : string;
  ae_agentName : string;
  ae_status : Status;
  ae_input : string;
  ae_output : option string;
  ae_error : option string;
  ae_taskId : option string;
  ae_projectId : option string;
  ae_duration : option Z;
  ae_tokensUsed : option Z;
  ae_startedAt : Z;
  ae_completedAt : option Z;
}.

Section Core.

(** The type [any] of the source, left abstract. *)
Context {Any : Type}.

Record AgentInput := {
  in_task : string;
  in_context : option Any;
  in_projectId : option string;
  in_taskId : option string;
  in_metadata : option Metadata;
}.

Record AgentOutput := {
  out_success : bool;
  out_result : option Any;
  out_error : option string;
  out_duration : Z;
  out_tokensUsed : option Z;
  out_agentExecutionId : option string;
  out_nextActions : option (list string);
}.

(** A [BaseAgent]: its configuration and its abstract [execute]. The
    executor is opaque; its answer may depend on the moment (tick) of the
    call, and it may throw. *)
Record BaseAgent := {
  config : AgentConfig;
  execute : nat → AgentInput → Outcome AgentOutput;
}.

(** What the persistence store and the executors observe, in order. *)
Inductive Event :=
| EvSave (record : AgentExecution)
| EvSaveFailed (record : AgentExecution) (message : string)
| EvExecute (agentType : string) (input : AgentInput).

Record World := {
  agents : gmap string BaseAgent;
  tick : nat;
  trace : list Event;
}.

(** The environment. [repo_save n] is [Some message] when the write issued
    at tick [n] is rejected by the store. *)
Record Env := {
  Date_now : nat → Z;
  uuidv4 : nat → string;
  Math_random : nat → string;
  toISOString : Z → string;
  number_toString : Z → string;
  repo_save : nat → option string;
  JSON_stringify : Any → Outcome (option string);
  JSON_stringify_input : AgentInput → Outcome string;
  previousResults : gmap string AgentOutput → Any;
}.

Variable env : Env.

Abbreviation M := (ST World).

Definition advance (w : World) : World :=
  {| agents := agents w; tick := S (tick w); trace := trace w |}.

Definition emit (ev : Event) (w : World) : World :=
  {| agents := agents w; tick := tick w; trace := trace w ++ [ev] |}.

(** [Date.now()] and [new Date()] *)
Definition now : M Z := λ w, (Resolved (Date_now env (tick w)), advance w).

Definition fresh_uuid : M string := λ w, (Resolved (uuidv4 env (tick w)), advance w).

(** [Math.random().toString(36).substr(2, 9)] *)
Definition random : M string := λ w, (Resolved (Math_random env (tick w)), advance w).

(** [await this.agentExecutionRepo.save(agentExecution)] *)
Definition save (record : AgentExecution) : M unit := λ w,
  match repo_save env (tick w) with
  | None => (Resolved (), advance (emit (EvSave record) w))
  | Some e => (Rejected e, advance (emit (EvSaveFailed record e) w))
  end.

(** [await this.execute(input)] *)
Definition run_execute (agent : BaseAgent) (input : AgentInput) : M AgentOutput := λ w,
  (execute agent (tick w) input,
   advance (emit (EvExecute (cfg_type (config agent)) input) w)).

(** ** [BaseAgent] *)

(** The assignments of lines 54-59, one setter per mutated field. *)
Definition set_status (s : Status) (r : AgentExecution) : AgentExecution :=
  {| ae_id := ae_id r; ae_agentType := ae_agentType r; ae_agentName := ae_agentName r;
     ae_status := s; ae_input := ae_input r; ae_output := ae_output r;
     ae_error := ae_error r; ae_taskId := ae_taskId r; ae_projectId := ae_projectId r;
     ae_duration := ae_duration r; ae_tokensUsed := ae_tokensUsed r;
     ae_startedAt := ae_startedAt r; ae_completedAt := ae_completedAt r |}.

Definition set_output (o : option string) (r : AgentExecution) : AgentExecution :=
  {| ae_id := ae_id r; ae_agentType := ae_agentType r; ae_agentName := ae_agentName r;
     ae_status := ae_status r; ae_input := ae_input r; ae_output := o;
     ae_error := ae_error r; ae_taskId := ae_taskId r; ae_projectId := ae_projectId r;
     ae_duration := ae_duration r; ae_tokensUsed := ae_tokensUsed r;
     ae_startedAt := ae_startedAt r; ae_completedAt := ae_completedAt r |}.

Definition set_error (e : option string) (r : AgentExecution) : AgentExecution :=
  {| ae_id := ae_id r; ae_agentType := ae_agentType r; ae_agentName := ae_agentName r;
     ae_status := ae_status r; ae_input := ae_input r; ae_output := ae_output r;
     ae_error := e; ae_taskId := ae_taskId r; ae_projectId := ae_projectId r;
     ae_duration := ae_duration r; ae_tokensUsed := ae_tokensUsed r;
     ae_startedAt := ae_startedAt r; ae_completedAt := ae_completedAt r |}.

Definition set_duration (d : Z) (r : AgentExecution) : AgentExecution :=
  {| ae_id := ae_id r; ae_agentType := ae_agentType r; ae_agentName := ae_agentName r;
     ae_status := ae_status r; ae_input := ae_input r; ae_output := ae_output r;
     ae_error := ae_error r; ae_taskId := ae_taskId r; ae_projectId := ae_projectId r;
     ae_duration := Some d; ae_tokensUsed := ae_tokensUsed r;
     ae_startedAt := ae_startedAt r; ae_completedAt := ae_completedAt r |}.

Definition set_tokensUsed (t : option Z) (r : AgentExecution) : AgentExecution :=
  {| ae_id := ae_id r; ae_agentType := ae_agentType r; ae_agentName := ae_agentName r;
     ae_status := ae_status r; ae_input := ae_input r; ae_output := ae_output r;
     ae_error := ae_error r; ae_taskId := ae_taskId r; ae_projectId := ae_projectId r;
     ae_duration := ae_duration r; ae_tokensUsed := t;
     ae_startedAt := ae_startedAt r; ae_completedAt := ae_completedAt r |}.

Definition set_completedAt (t : Z) (r : AgentExecution) : AgentExecution :=
  {| ae_id := ae_id r; ae_agentType := ae_agentType r; ae_agentName := ae_agentName r;
     ae_status := ae_status r; ae_input := ae_input r; ae_output := ae_output r;
     ae_error := ae_error r; ae_taskId := ae_taskId r; ae_projectId := ae_projectId r;
     ae_duration := ae_duration r; ae_tokensUsed := ae_tokensUsed r;
     ae_startedAt := ae_startedAt r; ae_completedAt := Some t |}.

(** [{ ...result, agentExecutionId: agentExecution.id, duration: agentExecution.duration }] *)
Definition with_execution (result : AgentOutput) (id : string) (d : Z) : AgentOutput :=
  {| out_success := out_success result; out_result := out_result result;
     out_error := out_error result; out_duration := d;
     out_tokensUsed := out_tokensUsed result; out_agentExecutionId := Some id;
     out_nextActions := out_nextActions result |}.

(** The local variable [agentExecution] of [processTask]: [None] while it is
    still unassigned. The [try] block and the [catch] block share it. *)
Abbreviation Local := (option AgentExecution).

(** Mutation of the object [agentExecution] refers to. *)
Definition update_local (f : AgentExecution → AgentExecution) : ST (Local * World) unit :=
  λ '(l, w), (Resolved (), (f <$> l, w)).

(** The object behind [agentExecution], once assigned. *)
Definition the_local (l : Local) (fallback : AgentExecution) : AgentExecution :=
  default fallback l.

(** The body of the [try] block (lines 34-68). *)
Definition processTask_try (agent : BaseAgent) (input : AgentInput) (startTime : Z)
  : ST (Local * World) AgentOutput :=
  id ← lift fresh_uuid;
  serialized ← throwing (JSON_stringify_input env input);
  startedAt ← lift now;
  let created :=
    {| ae_id := id;
       ae_agentType := cfg_type (config agent);
       ae_agentName := cfg_name (config agent);
       ae_status := running;
       ae_input := serialized;
       ae_output := None;
       ae_error := None;
       ae_taskId := in_taskId input;
       ae_projectId := in_projectId input;
       ae_duration := None;
       ae_tokensUsed := None;
       ae_startedAt := startedAt;
       ae_completedAt := None |} in
  set_local (Some created);;
  lift (save created);;
  result ← lift (run_execute agent input);
  update_local (set_status (if out_success result then completed else failed));;
  output ← (if out_success result
            then match out_result result with
                 | Some v => throwing (JSON_stringify env v)
                 | None => mret None
                 end
            else mret (out_error result));
  update_local (set_output output);;
  update_local (set_error (out_error result));;
  finished ← lift now;
  update_local (set_duration (finished - startTime));;
  update_local (set_tokensUsed (out_tokensUsed result));;
  completedAt ← lift now;
  update_local (set_completedAt completedAt);;
  l ← get_local;
  lift (save (the_local l created));;
  mret (with_execution result (ae_id (the_local l created)) (finished - startTime)).

(** The [catch] block (lines 70-90). *)
Definition processTask_catch (startTime : Z) (message : string)
  : ST (Local * World) AgentOutput :=
  finished ← lift now;
  let duration := finished - startTime in
  l ← get_local;
  match l with
  | Some agentExecution =>
      completedAt ← lift now;
      lift (save (set_completedAt completedAt
                    (set_duration duration
                       (set_error (Some message)
                          (set_status failed agentExecution)))))
  | None => mret ()
  end;;
  mret {| out_success := false;
          out_result := None;
          out_error := Some message;
          out_duration := duration;
          out_tokensUsed := None;
          out_agentExecutionId := ae_id <$> l;
          out_nextActions := None |}.

(** [BaseAgent.processTask] (base-agent.ts, lines 29-91). *)
Definition processTask (agent : BaseAgent) (input : AgentInput) : M AgentOutput :=
  startTime ← now;
  with_local None
    (try_catch (processTask_try agent input startTime)
               (processTask_catch startTime)).

(** [getConfig] returns a copy of the configuration; at the level of values
    a copy is the value itself (the aliasing is studied in [ObjectStore]). *)
Definition getConfig (agent : BaseAgent) : AgentConfig := config agent.

Definition isEnabled (agent : BaseAgent) : bool := cfg_enabled (config agent).

(** ** [AgentRegistry] *)

Definition set_agents (m : gmap string BaseAgent) (w : World) : World :=
  {| agents := m; tick := tick w; trace := trace w |}.

(** [registerAgent] (agent.registry.ts, lines 44-56): a disabled agent is
    not stored; an enabled one replaces whatever the type held. *)
Definition registerAgent (type : string) (agent : BaseAgent) : M unit := λ w,
  if negb (isEnabled agent)
  then (Resolved (), w)
  else (Resolved (), set_agents (<[type := agent]> (agents w)) w).

(** [getAgent] (lines 58-66) is synchronous; it reads [this.agents]. *)
Definition getAgent (type : string) (w : World) : option BaseAgent :=
  agents w !! type.

(** [getAllAgents] (lines 68-70): the entries of [new Map(this.agents)]. *)
Definition getAllAgents (w : World) : gmap string BaseAgent := agents w.

(** [getAvailableAgents] (lines 72-80). The iteration order of the JS [Map]
    (insertion order) is not modelled. *)
Definition getAvailableAgents (w : World) : list AgentConfig :=
  (λ entry, getConfig entry.2) <$> map_to_list (agents w).

Record AgentStatus := {
  st_name : string;
  st_enabled : bool;
  st_role : string;
  st_description : string;
  st_healthy : bool;
}.

(** [object[key] = value] on an object created by [{}]. Under the key
    "__proto__" the assignment reaches the accessor of [Object.prototype]:
    it sets the prototype of [object] (the value being an object) and gives
    [object] no property of its own. *)
Definition assign_property {V} (key : string) (value : V) (object : gmap string V)
  : gmap string V :=
  if decide (key = "__proto__") then object else <[key := value]> object.

(** [getAgentStatus] (lines 209-223): the own properties of the object
    [status] when the loop over [this.agents] ends, which is what a caller
    that enumerates or serializes the object finds. *)
Definition getAgentStatus (w : World) : gmap string AgentStatus :=
  map_fold (λ type agent status,
              assign_property type
                {| st_name := cfg_name (getConfig agent);
                   st_enabled := isEnabled agent;
                   st_role := cfg_role (getConfig agent);
                   st_description := cfg_description (getConfig agent);
                   st_healthy := true |}
                status)
    ∅ (agents w).

(** [`req_${Date.now()}_${Math.random().toString(36).substr(2, 9)}`] *)
Definition generateRequestId : M string :=
  t ← now;
  r ← random;
  mret ("req_" +:+ number_toString env t +:+ "_" +:+ r).

Definition not_available (agentType : string) : string :=
  "Agent type '" +:+ agentType +:+ "' not available".

(** [executeTask] (lines 82-121). [new Error(undefined).message] is the
    empty string. *)
Definition executeTask (agentType task : string) (context : option Any)
    (projectId taskId : option string) : M AgentOutput :=
  w ← get_state;
  match getAgent agentType w with
  | None => throw (not_available agentType)
  | Some agent =>
      date ← now;
      requestId ← generateRequestId;
      let input :=
        {| in_task := task;
           in_context := context;
           in_projectId := projectId;
           in_taskId := taskId;
           in_metadata := Some {| md_timestamp := toISOString env date;
                                  md_requestId := requestId |} |} in
      try_catch
        (result ← processTask agent input;
         if negb (out_success result)
         then throw (default "" (out_error result))
         else mret result)
        (λ message, throw message)
  end.

Record TaskRequest := {
  req_agentType : string;
  req_task : string;
  req_context : option Any;
  req_projectId : option string;
  req_taskId : option string;
}.

(** The object the [.catch] handler of [executeTasks] builds. *)
Record FailureStub := {
  stub_success : bool;
  stub_error : string;
  stub_agentType : string;
}.

(** [this.executeTask(...).catch(error => ...)], as one element of the
    array [executeTasks] maps its requests to, run from its call to its
    end. *)
Definition settled (request : TaskRequest) : M (AgentOutput + FailureStub) :=
  try_catch
    (inl <$> executeTask (req_agentType request) (req_task request)
               (req_context request) (req_projectId request) (req_taskId request))
    (λ message, mret (inr {| stub_success := false;
                             stub_error := message;
                             stub_agentType := req_agentType request |})).

Record WorkflowStep := {
  ws_agentType : string;
  ws_task : string;
  ws_dependencies : option (list string);
  ws_condition : option string;
}.

Record Workflow := {
  wf_name : string;
  wf_steps : list WorkflowStep;
}.

(** An entry of [executedSteps]. *)
Record StepEntry := {
  se_step : WorkflowStep;
  se_result : option AgentOutput;
  se_error : option string;
  se_status : Status;
}.

Record WorkflowReport := {
  rep_workflow : string;
  rep_totalSteps : nat;
  rep_completedSteps : nat;
  rep_failedSteps : nat;
  rep_results : gmap string AgentOutput;
  rep_steps : list StepEntry;
}.

(** [stepResults.has(dep)] *)
Definition Map_has {V} (m : gmap string V) (key : string) : bool :=
  match m !! key with
  | Some _ => true
  | None => false
  end.

Definition missingDeps (step : WorkflowStep) (stepResults : gmap string AgentOutput)
  : list string :=
  match ws_dependencies step with
  | Some dependencies =>
      List.filter (λ dep, negb (Map_has stepResults dep)) dependencies
  | None => []
  end.

(** The test that leads to [continue] (lines 172-178). *)
Definition skips (step : WorkflowStep) (stepResults : gmap string AgentOutput) : bool :=
  match ws_dependencies step with
  | Some dependencies =>
      (0 <? length dependencies)%nat && (0 <? length (missingDeps step stepResults))%nat
  | None => false
  end.

Definition completed_entry (step : WorkflowStep) (result : AgentOutput) : StepEntry :=
  {| se_step := step; se_result := Some result; se_error := None; se_status := completed |}.

Definition failed_entry (step : WorkflowStep) (message : string) : StepEntry :=
  {| se_step := step; se_result := None; se_error := Some message; se_status := failed |}.

(** The [for] loop of [orchestrateWorkflow] over the remaining steps, with
    the two accumulators [executedSteps] and [stepResults]. *)
Fixpoint workflow_loop (name : string) (steps : list WorkflowStep)
    (executedSteps : list StepEntry) (stepResults : gmap string AgentOutput)
  : M (list StepEntry * gmap string AgentOutput) :=
  match steps with
  | [] => mret (executedSteps, stepResults)
  | step :: rest =>
      if skips step stepResults
      then workflow_loop name rest executedSteps stepResults
      else λ w,
        match executeTask (ws_agentType step) (ws_task step)
                (Some (previousResults env stepResults)) None None w with
        | (Resolved result, w') =>
            workflow_loop name rest
              (executedSteps ++ [completed_entry step result])
              (<[ws_task step := result]> stepResults) w'
        | (Rejected message, w') =>
            if bool_decide (name ≠ "non-critical")
            then (Rejected message, w')
            else workflow_loop name rest
                   (executedSteps ++ [failed_entry step message]) stepResults w'
        end
  end.

(** [executedSteps.filter(s => s.status === ...).length] *)
Definition count_status (s : Status) (executedSteps : list StepEntry) : nat :=
  length (List.filter (λ e, bool_decide (se_status e = s)) executedSteps).

(** [orchestrateWorkflow] (lines 156-207); [Object.fromEntries(stepResults)]
    is the map itself. *)
Definition orchestrateWorkflow (workflow : Workflow) : M WorkflowReport :=
  '(executedSteps, stepResults) ← workflow_loop (wf_name workflow) (wf_steps workflow) [] ∅;
  mret {| rep_workflow := wf_name workflow;
          rep_totalSteps := length (wf_steps workflow);
          rep_completedSteps := count_status completed executedSteps;
          rep_failedSteps := count_status failed executedSteps;
          rep_results := stepResults;
          rep_steps := executedSteps |}.

(** ** [AgentsService] *)

Record ServiceResponse := {
  sr_success : bool;
  sr_agentType : string;
  sr_task : string;
  sr_result : option AgentOutput;
  sr_error : option string;
  sr_timestamp : string;
}.

(** [AgentsService.executeAgentTask] (agents.service.ts). *)
Definition executeAgentTask (agentType task : string) (context : option Any)
    (projectId taskId : option string) : M ServiceResponse :=
  try_catch
    (result ← executeTask agentType task context projectId taskId;
     date ← now;
     mret {| sr_success := true; sr_agentType := agentType; sr_task := task;
             sr_result := Some result; sr_error := None;
             sr_timestamp := toISOString env date |})
    (λ message,
     date ← now;
     mret {| sr_success := false; sr_agentType := agentType; sr_task := task;
             sr_result := None; sr_error := Some message;
             sr_timestamp := toISOString env date |}).

End Core.

Arguments AgentInput : clear implicits.
Arguments AgentOutput : clear implicits.
Arguments BaseAgent : clear implicits.
Arguments Event : clear implicits.
Arguments World : clear implicits.
Arguments Env : clear implicits.
Arguments TaskRequest : clear implicits.
Arguments StepEntry : clear implicits.
Arguments WorkflowReport : clear implicits.
Arguments ServiceResponse : clear implicits.

(** ** The input [executeTask] hands to the wrapper *)

(** The object of lines 96-105 when [executeTask] is entered at tick [t]:
    [new Date()] reads tick [t], [generateRequestId] reads ticks [t+1] and
    [t+2]. *)
Definition built_input {Any} (env : Env Any) (task : string) (context : option Any)
    (projectId taskId : option string) (t : nat) : AgentInput Any :=
  {| in_task := task;
     in_context := context;
     in_projectId := projectId;
     in_taskId := taskId;
     in_metadata :=
       Some {| md_timestamp := toISOString env (Date_now env t);
               md_requestId := "req_" +:+ number_toString env (Date_now env (S t))
                                 +:+ "_" +:+ Math_random env (S (S t)) |} |}.

(** The world in which the wrapper starts, three environment reads later. *)
Definition wrapper_start {Any} (w : World Any) : World Any :=
  advance (advance (advance w)).

(** An executor failure: a thrown exception or a returned [success: false]. *)
Definition executor_failure {Any} (outcome : Outcome (AgentOutput Any)) : Prop :=
  match outcome with
  | Resolved result => out_success result = false
  | Rejected _ => True
  end.

(** ** The call of one workflow step *)

(** [this.executeTask(step.agentType, step.task, { previousResults })], as
    the loop of [orchestrateWorkflow] writes it. *)
Abbreviation step_call env step stepResults :=
  (executeTask env (ws_agentType step) (ws_task step)
     (Some (previousResults env stepResults)) None None).

(** ** The entries of a batch *)

(** The [executeTask] of one request, run from its call to its end. *)
Definition run_request {Any} (env : Env Any) (request : TaskRequest Any)
  : ST (World Any) (AgentOutput Any) :=
  executeTask env (req_agentType request) (req_task request) (req_context request)
    (req_projectId request) (req_taskId request).

(** The entry of the result array for a request whose [executeTask]
    ended with [outcome]. *)
Definition batch_entry {Any} (request : TaskRequest Any)
    (outcome : Outcome (AgentOutput Any)) : AgentOutput Any + FailureStub :=
  match outcome with
  | Resolved r => inl r
  | Rejected message =>
      inr {| stub_success := false;
             stub_error := message;
             stub_agentType := req_agentType request |}
  end.

(** ** The batch: calls of [executeTask] that run together

    [requests.map(request => this.executeTask(...).catch(...))] calls
    [executeTask] for every request before any of the calls continues: an
    [async] function runs synchronously up to its first [await], and the
    first [await] a call reaches is the [save] of the [running] record in
    [processTask] (line 48 of base-agent.ts). From then on a call is
    suspended at one of the four [await]s of [processTask]; which of the
    suspended calls resumes next depends on when the store and the
    executors answer, and is the environment's choice. *)

Section Batch.
Context {Any : Type} (env : Env Any).

(** Where [processTask] is suspended. The awaited operation has been called
    (its effects are in the world); the last field is what the [await] will
    deliver. *)
Inductive Suspended :=
| AwaitRunningSave (agent : BaseAgent Any) (input : AgentInput Any) (startTime : Z)
    (agentExecution : AgentExecution) (saved : Outcome unit)
| AwaitExecute (startTime : Z) (agentExecution : AgentExecution)
    (result : Outcome (AgentOutput Any))
| AwaitTerminalSave (startTime : Z) (agentExecution : AgentExecution)
    (returned : AgentOutput Any) (saved : Outcome unit)
| AwaitFailedSave (returned : AgentOutput Any) (saved : Outcome unit).

(** The call of an asynchronous operation: its effects happen at the call,
    its outcome waits for the [await]. *)
Definition issue {A} (m : ST (World Any) A) : ST (World Any) (Outcome A) :=
  λ w, (Resolved (m w).1, (m w).2).

(** The [catch] block of [processTask] (lines 70-90), down to its [await]
    or, when no record was created, to its [return]. *)
Definition catch_block (startTime : Z) (agentExecution : option AgentExecution)
    (message : string) : ST (World Any) (Suspended + Outcome (AgentOutput Any)) :=
  finished ← now env;
  let duration := finished - startTime in
  let returned :=
    {| out_success := false;
       out_result := None;
       out_error := Some message;
       out_duration := duration;
       out_tokensUsed := None;
       out_agentExecutionId := ae_id <$> agentExecution;
       out_nextActions := None |} in
  match agentExecution with
  | Some agentExecution =>
      completedAt ← now env;
      saved ← issue (save env (set_completedAt completedAt
                                 (set_duration duration
                                    (set_error (Some message)
                                       (set_status failed agentExecution)))));
      mret (inl (AwaitFailedSave returned saved))
  | None => mret (inr (Resolved returned))
  end.

(** [processTask] from its entry to its first [await] (lines 30-48). *)
Definition processTask_start (agent : BaseAgent Any) (input : AgentInput Any)
  : ST (World Any) (Suspended + Outcome (AgentOutput Any)) :=
  startTime ← now env;
  id ← fresh_uuid env;
  match JSON_stringify_input env input with
  | Rejected message => catch_block startTime None message
  | Resolved serialized =>
      startedAt ← now env;
      let created :=
        {| ae_id := id;
           ae_agentType := cfg_type (config agent);
           ae_agentName := cfg_name (config agent);
           ae_status := running;
           ae_input := serialized;
           ae_output := None;
           ae_error := None;
           ae_taskId := in_taskId input;
           ae_projectId := in_projectId input;
           ae_duration := None;
           ae_tokensUsed := None;
           ae_startedAt := startedAt;
           ae_completedAt := None |} in
      saved ← issue (save env created);
      mret (inl (AwaitRunningSave agent input startTime created saved))
  end.

(** [processTask] from one [await] to the next, or to its end: after the
    [save] of line 48 the call of the executor (line 51); after the
    executor lines 54-61; after the [save] of line 61 the [return] of lines
    64-68; after the [save] of line 81 the [return] of lines 84-89. Whatever
    is thrown at an [await] of the [try] block, or by [JSON.stringify] at
    line 55, enters the [catch] block. *)
Definition processTask_resume (suspended : Suspended)
  : ST (World Any) (Suspended + Outcome (AgentOutput Any)) :=
  match suspended with
  | AwaitRunningSave agent input startTime agentExecution (Resolved _) =>
      result ← issue (run_execute agent input);
      mret (inl (AwaitExecute startTime agentExecution result))
  | AwaitRunningSave _ _ startTime agentExecution (Rejected message) =>
      catch_block startTime (Some agentExecution) message
  | AwaitExecute startTime agentExecution (Resolved result) =>
      let agentExecution :=
        set_status (if out_success result then completed else failed) agentExecution in
      match (if out_success result
             then match out_result result with
                  | Some v => JSON_stringify env v
                  | None => Resolved None
                  end
             else Resolved (out_error result)) with
      | Rejected message => catch_block startTime (Some agentExecution) message
      | Resolved output =>
          let agentExecution := set_error (out_error result)
                                  (set_output output agentExecution) in
          finished ← now env;
          let agentExecution := set_tokensUsed (out_tokensUsed result)
                                  (set_duration (finished - startTime) agentExecution) in
          completedAt ← now env;
          let agentExecution := set_completedAt completedAt agentExecution in
          saved ← issue (save env agentExecution);
          mret (inl (AwaitTerminalSave startTime agentExecution
                       (with_execution result (ae_id agentExecution)
                          (finished - startTime))
                       saved))
      end
  | AwaitExecute startTime agentExecution (Rejected message) =>
      catch_block startTime (Some agentExecution) message
  | AwaitTerminalSave _ _ returned (Resolved _) => mret (inr (Resolved returned))
  | AwaitTerminalSave startTime agentExecution _ (Rejected message) =>
      catch_block startTime (Some agentExecution) message
  | AwaitFailedSave returned (Resolved _) => mret (inr (Resolved returned))
  | AwaitFailedSave _ (Rejected message) => mret (inr (Rejected message))
  end.

(** One promise of the batch, [this.executeTask(...).catch(...)]: suspended
    in [processTask], or fulfilled with an entry of the result array. The
    [.catch] handler leaves it no way to reject. *)
Abbreviation Promise := (Suspended + (AgentOutput Any + FailureStub))%type.

(** Lines 110-120 of [executeTask] and the [.catch] handler of lines
    139-143, which follow once [processTask] has returned or thrown; they
    read nothing of the world. *)
Definition settle (request : TaskRequest Any)
    (wrapper : Suspended + Outcome (AgentOutput Any)) : Promise :=
  match wrapper with
  | inl suspended => inl suspended
  | inr (Resolved result) =>
      if negb (out_success result)
      then inr (batch_entry request (Rejected (default "" (out_error result))))
      else inr (batch_entry request (Resolved result))
  | inr (Rejected message) => inr (batch_entry request (Rejected message))
  end.

(** The [await]s of [processTask] a promise may still stop at. *)
Definition awaits_left (promise : Promise) : nat :=
  match promise with
  | inl (AwaitRunningSave _ _ _ _ _) => 4
  | inl (AwaitExecute _ _ _) => 3
  | inl (AwaitTerminalSave _ _ _ _) => 2
  | inl (AwaitFailedSave _ _) => 1
  | inr _ => 0
  end%nat.

(** The promise of [request] from the call of [executeTask] to its first
    [await] (lines 89-108): an unregistered type throws at once. *)
Definition start (request : TaskRequest Any) : ST (World Any) Promise :=
  w ← get_state;
  match getAgent (req_agentType request) w with
  | None =>
      mret (inr (batch_entry request (Rejected (not_available (req_agentType request)))))
  | Some agent =>
      date ← now env;
      requestId ← generateRequestId env;
      let input :=
        {| in_task := req_task request;
           in_context := req_context request;
           in_projectId := req_projectId request;
           in_taskId := req_taskId request;
           in_metadata := Some {| md_timestamp := toISOString env date;
                                  md_requestId := requestId |} |} in
      wrapper ← processTask_start agent input;
      mret (settle request wrapper)
  end.

(** The promise of [request], suspended at [suspended], resumes. *)
Definition resume (request : TaskRequest Any) (suspended : Suspended)
  : ST (World Any) Promise :=
  wrapper ← processTask_resume suspended;
  mret (settle request wrapper).

(** [requests.map(request => this.executeTask(...).catch(...))] (lines
    132-144): every promise is started, in the order of the requests. *)
Fixpoint start_all (requests : list (TaskRequest Any)) : ST (World Any) (list Promise) :=
  match requests with
  | [] => mret []
  | request :: rest =>
      promise ← start request;
      promises ← start_all rest;
      mret (promise :: promises)
  end.

(** The event loop while [executeTasks] waits at line 146: the suspended
    promises resume one at a time, [order] listing their indices in the
    order in which they do. An index whose promise is fulfilled already has
    nothing to resume. *)
Fixpoint event_loop (requests : list (TaskRequest Any)) (order : list nat)
    (promises : list Promise) : ST (World Any) (list Promise) :=
  match order with
  | [] => mret promises
  | i :: rest =>
      match requests !! i, promises !! i with
      | Some request, Some (inl suspended) =>
          promise ← resume request suspended;
          event_loop requests rest (<[i := promise]> promises)
      | _, _ => event_loop requests rest promises
      end
  end.

(** The promises still suspended when [order] ends resume in turn. Four
    rounds fulfil them all: [processTask] has four [await]s. *)
Definition turns (n : nat) : list nat := mjoin (replicate 4 (seq 0 n)).

(** [Promise.all(promises)], once every promise is fulfilled: the values,
    in the order of the promises. *)
Definition Promise_all (promises : list Promise) : list (AgentOutput Any + FailureStub) :=
  omap (λ promise, match promise with
                   | inr entry => Some entry
                   | inl _ => None
                   end) promises.

(** [executeTasks] (agent.registry.ts, lines 123-154), under the order
    [order] of resumption. *)
Definition executeTasks (order : list nat) (requests : list (TaskRequest Any))
  : ST (World Any) (list (AgentOutput Any + FailureStub)) :=
  promises ← start_all requests;
  promises ← event_loop requests (order ++ turns (length requests)) promises;
  mret (Promise_all promises).

(** *** A promise on its own clock *)

(** [Date.now()], the store and the executors as they answer at tick [t]. *)
Definition at_tick (t : nat) : ST (World Any) unit := λ w,
  (Resolved (), {| agents := agents w; tick := t; trace := trace w |}).

(** The promise resumes at each of the ticks [moments], until fulfilled. *)
Fixpoint resume_at (request : TaskRequest Any) (moments : list nat) (promise : Promise)
  : ST (World Any) Promise :=
  match moments, promise with
  | t :: rest, inl suspended =>
      at_tick t;;
      promise ← resume request suspended;
      resume_at request rest promise
  | _, _ => mret promise
  end.

(** The promise of [request] with no other call around: started at tick
    [t], resumed at the ticks [moments]. *)
Definition alone (request : TaskRequest Any) (t : nat) (moments : list nat)
  : ST (World Any) Promise :=
  at_tick t;;
  promise ← start request;
  resume_at request moments promise.

End Batch.

Arguments Suspended : clear implicits.

Abbreviation Promise Any := (Suspended Any + (AgentOutput Any + FailureStub))%type.

(** An entry at the place of its request: a result is a success, a stub
    carries the type of the request. *)
Definition in_place {Any} (request : TaskRequest Any)
    (promise : Promise Any) : Prop :=
  match promise with
  | inl _ => True
  | inr (inl result) => out_success result = true
  | inr (inr stub) =>
      stub_success stub = false ∧ stub_agentType stub = req_agentType request
  end.

(** What the promise of [request] comes to with no other call around, for
    some ticks at which it starts and resumes. *)
Definition on_its_own {Any} (env : Env Any) (w : World Any) (request : TaskRequest Any)
    (promise : Promise Any) : Prop :=
  ∃ t moments, (alone env request t moments w).1 = Resolved promise.

(** What holds of the promise of [request] in a batch called in [w]. *)
Definition promise_of {Any} (env : Env Any) (w : World Any) (request : TaskRequest Any)
    (promise : Promise Any) : Prop :=
  on_its_own env w request promise ∧
  in_place request promise ∧
  (getAgent (req_agentType request) w = None →
   promise = inr (batch_entry request (Rejected (not_available (req_agentType request))))).

(** ** Reading a trace *)

(** The records the store accepted, oldest first. *)
Definition writes {Any} (events : list (Event Any)) : list AgentExecution :=
  omap (λ ev, match ev with EvSave r => Some r | _ => None end) events.

Definition terminal (r : AgentExecution) : Prop :=
  ae_status r = completed ∨ ae_status r = failed.

#[global] Instance terminal_dec r : Decision (terminal r).
Proof. unfold terminal. apply _. Defined.

(** The state of record [id] in the store: its last accepted write. *)
Definition stored {Any} (events : list (Event Any)) (id : string) : option AgentExecution :=
  last (filter (λ r, ae_id r = id) (writes events)).

(** The events a computation added to the trace. *)
Definition events_since {Any} (w w' : World Any) : list (Event Any) :=
  drop (length (trace w)) (trace w').

(** The store accepts every write issued from tick [t] on. *)
Definition accepts_writes_from {Any} (env : Env Any) (t : nat) : Prop :=
  ∀ n, (t ≤ n)%nat → repo_save env n = None.

(** The lifecycle of one record read off the events of one invocation: the
    accepted write of the running record, then the executor, then exactly
    one accepted write, of a terminal state of the same record. *)
Definition record_lifecycle {Any} (events : list (Event Any)) : Prop :=
  ∃ r1 agentType input rest r2,
    events = EvSave r1 :: EvExecute agentType input :: rest ∧
    ae_status r1 = running ∧
    writes rest = [r2] ∧ terminal r2 ∧ ae_id r2 = ae_id r1.

(** [output] only on completed records, [error] only on failed ones. *)
Definition output_error_by_status (r : AgentExecution) : Prop :=
  (is_Some (ae_output r) → ae_status r = completed) ∧
  (is_Some (ae_error r) → ae_status r = failed).

(** An entry of the step log, as [orchestrateWorkflow] pushes them: a
    completed entry with a successful result, or a failed entry with the
    error message. *)
Definition logged {Any} (e : StepEntry Any) : Prop :=
  (se_status e = completed ∧ ∃ r, se_result e = Some r ∧ out_success r = true) ∨
  (se_status e = failed ∧ se_result e = None ∧ is_Some (se_error e)).

(** The accumulated results map read off the step log: the result of each
    completed entry stored under [step.task], in log order. *)
Definition results_of_log {Any} (executedSteps : list (StepEntry Any))
  : gmap string (AgentOutput Any) :=
  foldl (λ m e, match se_status e, se_result e with
                | completed, Some result => <[ws_task (se_step e) := result]> m
                | _, _ => m
                end) ∅ executedSteps.





(** ** The run of a workflow, in the words of the specification

    The steps are taken in list order. A step with a dependency that is not
    a key of the results map is skipped and leaves no trace. Otherwise the
    step is attempted with [executeTask]: a success is stored in the results
    map under [step.task] and appended to the step log as [completed]; a
    failure is appended as [failed], which only a workflow named
    "non-critical" survives. *)
Inductive workflow_run {Any} (env : Env Any) (name : string)
  : list WorkflowStep →
    list (StepEntry Any) → gmap string (AgentOutput Any) → World Any →
    list (StepEntry Any) → gmap string (AgentOutput Any) → World Any → Prop :=
| run_done log results w :
    workflow_run env name [] log results w log results w
| run_skipped step rest log results w dependencies dep log' results' w' :
    ws_dependencies step = Some dependencies →
    dep ∈ dependencies →
    results !! dep = None →
    workflow_run env name rest log results w log' results' w' →
    workflow_run env name (step :: rest) log results w log' results' w'
| run_completed step rest log results w result w1 log' results' w' :
    (∀ dependencies dep,
       ws_dependencies step = Some dependencies → dep ∈ dependencies →
       is_Some (results !! dep)) →
    executeTask env (ws_agentType step) (ws_task step)
      (Some (previousResults env results)) None None w = (Resolved result, w1) →
    workflow_run env name rest
      (log ++ [{| se_step := step; se_result := Some result;
                  se_error := None; se_status := completed |}])
      (<[ws_task step := result]> results) w1 log' results' w' →
    workflow_run env name (step :: rest) log results w log' results' w'
| run_failed step rest log results w message w1 log' results' w' :
    (∀ dependencies dep,
       ws_dependencies step = Some dependencies → dep ∈ dependencies →
       is_Some (results !! dep)) →
    executeTask env (ws_agentType step) (ws_task step)
      (Some (previousResults env results)) None None w = (Rejected message, w1) →
    name = "non-critical" →
    workflow_run env name rest
      (log ++ [{| se_step := step; se_result := None;
                  se_error := Some message; se_status := failed |}])
      results w1 log' results' w' →
    workflow_run env name (step :: rest) log results w log' results' w'.

(** ** Objects and references

    [getAllAgents] and [getConfig] hand objects to the caller, who may
    mutate them. Here the JS objects live in a heap and the methods return
    references, so that a copy and an alias differ. *)

Module ObjectStore.

Abbreviation loc := positive.

Inductive Obj :=
| MapObj (entries : gmap string loc)  (* a [Map<string, BaseAgent>] *)
| ConfigObj (c : AgentConfig)         (* an [AgentConfig] object *)
| AgentObj (config_ref : loc).        (* a [BaseAgent], by its [this.config] *)

Abbreviation Heap := (gmap loc Obj).

(** Allocation of a new object. *)
Definition alloc (o : Obj) (h : Heap) : loc * Heap :=
  (fresh (dom h), <[fresh (dom h) := o]> h).

(** [this.config] of the agent at [agent], dereferenced. *)
Definition read_config (agent : loc) (h : Heap) : option AgentConfig :=
  match h !! agent with
  | Some (AgentObj c) =>
      match h !! c with
      | Some (ConfigObj cfg) => Some cfg
      | _ => None
      end
  | _ => None
  end.

(** [return { ...this.config }] *)
Definition getConfig (agent : loc) (h : Heap) : option loc * Heap :=
  match read_config agent h with
  | Some cfg => let '(l, h') := alloc (ConfigObj cfg) h in (Some l, h')
  | None => (None, h)
  end.

Definition isEnabled (agent : loc) (h : Heap) : bool :=
  match read_config agent h with
  | Some cfg => cfg_enabled cfg
  | None => false
  end.

(** The entries of the [Map] that [this.agents] refers to. *)
Definition entries_of (agents : loc) (h : Heap) : gmap string loc :=
  match h !! agents with
  | Some (MapObj m) => m
  | _ => ∅
  end.

(** [this.agents.set(type, agent)], unless the agent is disabled. *)
Definition registerAgent (agents : loc) (type : string) (agent : loc) (h : Heap) : Heap :=
  if negb (isEnabled agent h)
  then h
  else <[agents := MapObj (<[type := agent]> (entries_of agents h))]> h.

Definition getAgent (agents : loc) (type : string) (h : Heap) : option loc :=
  entries_of agents h !! type.

(** [return new Map(this.agents)] *)
Definition getAllAgents (agents : loc) (h : Heap) : loc * Heap :=
  alloc (MapObj (entries_of agents h)) h.

(** The loop of [getAvailableAgents]: [configs.push(agent.getConfig())]. *)
Fixpoint getConfigs (registered : list loc) (h : Heap) : list loc * Heap :=
  match registered with
  | [] => ([], h)
  | agent :: rest =>
      match getConfig agent h with
      | (Some c, h') => let '(cs, h'') := getConfigs rest h' in (c :: cs, h'')
      | (None, h') => getConfigs rest h'
      end
  end.

Definition getAvailableAgents (agents : loc) (h : Heap) : list loc * Heap :=
  getConfigs (map_to_list (entries_of agents h)).*2 h.

(** What a caller can do to an object it holds a reference to. *)
Inductive Mutation :=
| MapSet (key : string) (value : loc)          (* [map.set(key, value)] *)
| MapDelete (key : string)                     (* [map.delete(key)] *)
| MapClear                                     (* [map.clear()] *)
| Assign (update : AgentConfig → AgentConfig). (* [config.field = value] *)

Definition mutate (target : loc) (mu : Mutation) (h : Heap) : Heap :=
  match mu, h !! target with
  | MapSet key value, Some (MapObj m) => <[target := MapObj (<[key := value]> m)]> h
  | MapDelete key, Some (MapObj m) => <[target := MapObj (delete key m)]> h
  | MapClear, Some (MapObj _) => <[target := MapObj ∅]> h
  | Assign update, Some (ConfigObj c) => <[target := ConfigObj (update c)]> h
  | _, _ => h
  end.

Definition mutate_all (target : loc) (mus : list Mutation) (h : Heap) : Heap :=
  foldl (λ h mu, mutate target mu h) h mus.

End ObjectStore.

(** ** Concrete environments, agents and workflows

    Used to run the model: [any] is a string here. *)

Module Scenario.

(** A store that accepts every write. *)
Definition reliable : Env string :=
  {| Date_now := λ n, Z.of_nat n;
     uuidv4 := λ n, "uuid-" +:+ pretty n;
     Math_random := λ n, pretty n;
     toISOString := λ t, pretty t;
     number_toString := λ t, pretty t;
     repo_save := λ _, None;
     JSON_stringify := λ v, Resolved (Some v);
     JSON_stringify_input := λ input, Resolved (in_task input);
     previousResults := λ _, "previousResults" |}.

(** A store that goes down after tick 3. *)
Definition unreliable : Env string :=
  {| Date_now := Date_now reliable;
     uuidv4 := uuidv4 reliable;
     Math_random := Math_random reliable;
     toISOString := toISOString reliable;
     number_toString := number_toString reliable;
     repo_save := λ n, if (3 <? n)%nat then Some "store down" else None;
     JSON_stringify := JSON_stringify reliable;
     JSON_stringify_input := JSON_stringify_input reliable;
     previousResults := previousResults reliable |}.

Definition cfg (type : string) (enabled : bool) : AgentConfig :=
  {| cfg_name := type; cfg_type := type; cfg_enabled := enabled;
     cfg_role := "worker"; cfg_description := "";
     cfg_timeout := 60000; cfg_retryAttempts := 3; cfg_maxConcurrent := 5 |}.

Definition answer (success : bool) (result error : option string) : AgentOutput string :=
  {| out_success := success; out_result := result; out_error := error;
     out_duration := 0; out_tokensUsed := None; out_agentExecutionId := None;
     out_nextActions := None |}.

(** Answers every task with the task itself. *)
Definition succeeding : BaseAgent string :=
  {| config := cfg "ok" true;
     execute := λ _ input, Resolved (answer true (Some (in_task input)) None) |}.

(** Returns [{success: false, error: "boom"}]. *)
Definition failing : BaseAgent string :=
  {| config := cfg "bad" true;
     execute := λ _ _, Resolved (answer false None (Some "boom")) |}.

(** Throws. *)
Definition crashing : BaseAgent string :=
  {| config := cfg "crash" true;
     execute := λ _ _, Rejected "crash" |}.

(** Succeeds, and reports a warning in [error]. *)
Definition warning : BaseAgent string :=
  {| config := cfg "warn" true;
     execute := λ _ input, Resolved (answer true (Some (in_task input)) (Some "deprecated")) |}.

Definition disabled : BaseAgent string :=
  {| config := cfg "ok" false;
     execute := λ _ input, Resolved (answer true (Some (in_task input)) None) |}.

Definition empty_world : World string :=
  {| agents := ∅; tick := 0; trace := [] |}.

Definition w0 : World string :=
  {| agents := <["ok" := succeeding]> (<["bad" := failing]> (<["crash" := crashing]> ∅));
     tick := 0; trace := [] |}.

Definition task (text : string) : AgentInput string :=
  {| in_task := text; in_context := None; in_projectId := None;
     in_taskId := None; in_metadata := None |}.

Definition request (agentType text : string) : TaskRequest string :=
  {| req_agentType := agentType; req_task := text; req_context := None;
     req_projectId := None; req_taskId := None |}.

Definition step (agentType text : string) (dependencies : option (list string))
  : WorkflowStep :=
  {| ws_agentType := agentType; ws_task := text;
     ws_dependencies := dependencies; ws_condition := None |}.

Definition step_A := step "ok" "A" None.
Definition step_B := step "ok" "B" (Some ["A"]).
Definition step_C := step "ok" "C" (Some ["Z"]).

(** [A], then [B] that depends on [A], then [C] that depends on a key no
    step produces. *)
Definition spec_workflow : Workflow :=
  {| wf_name := "flow"; wf_steps := [step_A; step_B; step_C] |}.

(** A failing step followed by an independent one. *)
Definition critical_flow : Workflow :=
  {| wf_name := "critical-flow"; wf_steps := [step "bad" "A" None; step "ok" "B" None] |}.

Definition non_critical : Workflow :=
  {| wf_name := "non-critical"; wf_steps := [step "bad" "A" None; step "ok" "B" None] |}.

(** Two steps with the task string "A": the first one is skipped. *)
Definition shadowed : Workflow :=
  {| wf_name := "flow"; wf_steps := [step "ok" "A" (Some ["Z"]); step_A; step_B] |}.

(** Two steps with the task string "A", both completed. *)
Definition repeated : Workflow :=
  {| wf_name := "flow"; wf_steps := [step_A; step_B; step_A] |}.

(** A heap with the registry's map at [1], holding the agent at [2], whose
    configuration is the object at [3]. *)
Definition heap0 : ObjectStore.Heap :=
  <[1%positive := ObjectStore.MapObj (<["ok" := 2%positive]> ∅)]>
    (<[2%positive := ObjectStore.AgentObj 3]>
       (<[3%positive := ObjectStore.ConfigObj (cfg "ok" true)]> ∅)).

(** [config.enabled = false] *)
Definition disable (c : AgentConfig) : AgentConfig :=
  {| cfg_name := cfg_name c; cfg_type := cfg_type c; cfg_enabled := false;
     cfg_role := cfg_role c; cfg_description := cfg_description c;
     cfg_timeout := cfg_timeout c; cfg_retryAttempts := cfg_retryAttempts c;
     cfg_maxConcurrent := cfg_maxConcurrent c |}.

End Scenario.

(** * The remaining methods and their callers *)

(** ** [AgentRegistry.onModuleInit] *)

(** The five agents the constructor of [AgentRegistry] receives. *)
Record Injected (Any : Type) := {
  managerAgent : BaseAgent Any;
  planningAgent : BaseAgent Any;
  codeGenerationAgent : BaseAgent Any;
  reviewAgent : BaseAgent Any;
  testingAgent : BaseAgent Any;
}.
Arguments managerAgent {Any} _.
Arguments planningAgent {Any} _.
Arguments codeGenerationAgent {Any} _.
Arguments reviewAgent {Any} _.
Arguments testingAgent {Any} _.

(** [onModuleInit] (agent.registry.ts, lines 30-42): five [registerAgent]
    calls; the rest of the method only logs. *)
Definition onModuleInit {Any} (this : Injected Any) : ST (World Any) unit :=
  registerAgent "manager" (managerAgent this);;
  registerAgent "planning" (planningAgent this);;
  registerAgent "code_generation" (codeGenerationAgent this);;
  registerAgent "review" (reviewAgent this);;
  registerAgent "testing" (testingAgent this).

(** The agent [onModuleInit] passes to [registerAgent] under [type]. *)
Definition injected {Any} (this : Injected Any) (type : string) : option (BaseAgent Any) :=
  if decide (type = "manager") then Some (managerAgent this)
  else if decide (type = "planning") then Some (planningAgent this)
  else if decide (type = "code_generation") then Some (codeGenerationAgent this)
  else if decide (type = "review") then Some (reviewAgent this)
  else if decide (type = "testing") then Some (testingAgent this)
  else None.

(** Every registered agent is enabled. *)
Definition only_enabled {Any} (w : World Any) : Prop :=
  ∀ type agent, getAgent type w = Some agent → isEnabled agent = true.

(** [r.success] on an entry of the array [executeTasks] resolves with. *)
Definition entry_success {Any} (entry : AgentOutput Any + FailureStub) : bool :=
  match entry with
  | inl r => out_success r
  | inr stub => stub_success stub
  end.

(** A record the wrapper handed to the store, accepted or not. *)
Definition written {Any} (r : AgentExecution) (events : list (Event Any)) : Prop :=
  EvSave r ∈ events ∨ ∃ message, EvSaveFailed r message ∈ events.

(** [step] without its [condition]. *)
Definition without_condition (step : WorkflowStep) : WorkflowStep :=
  {| ws_agentType := ws_agentType step; ws_task := ws_task step;
     ws_dependencies := ws_dependencies step; ws_condition := None |}.

(** A log entry whose step has lost its [condition]. *)
Definition entry_without_condition {Any} (e : StepEntry Any) : StepEntry Any :=
  {| se_step := without_condition (se_step e); se_result := se_result e;
     se_error := se_error e; se_status := se_status e |}.

(** ** [AgentsService] (agents.service.ts) *)

Module AgentsService.
Section Methods.
Context {Any : Type} (env : Env Any).

(** An element of the array [executeMultipleTasks] returns; [results[index]]
    is [undefined] past the end of [results]. *)
Record TaskEnvelope := {
  te_request : TaskRequest Any;
  te_result : option (AgentOutput Any + FailureStub);
  te_timestamp : string;
}.

(** [requests.map((request, index) => ({ request, result: results[index],
    timestamp: new Date().toISOString() }))], from [index] on. *)
Fixpoint envelopes (requests : list (TaskRequest Any)) (index : nat)
    (results : list (AgentOutput Any + FailureStub)) : ST (World Any) (list TaskEnvelope) :=
  match requests with
  | [] => mret []
  | request :: rest =>
      date ← now env;
      tail ← envelopes rest (S index) results;
      mret ({| te_request := request;
               te_result := results !! index;
               te_timestamp := toISOString env date |} :: tail)
  end.

Definition executeMultipleTasks (order : list nat) (requests : list (TaskRequest Any))
  : ST (World Any) (list TaskEnvelope) :=
  results ← executeTasks env order requests;
  envelopes requests 0 results.

Record WorkflowResponse := {
  wr_success : bool;
  wr_workflow : string;
  wr_result : option (WorkflowReport Any);
  wr_error : option string;
  wr_timestamp : string;
}.

Definition executeWorkflow (workflow : Workflow) : ST (World Any) WorkflowResponse :=
  try_catch
    (result ← orchestrateWorkflow env workflow;
     date ← now env;
     mret {| wr_success := true; wr_workflow := wf_name workflow;
             wr_result := Some result; wr_error := None;
             wr_timestamp := toISOString env date |})
    (λ message,
     date ← now env;
     mret {| wr_success := false; wr_workflow := wf_name workflow;
             wr_result := None; wr_error := Some message;
             wr_timestamp := toISOString env date |}).

Definition getAvailableAgents : ST (World Any) (list AgentConfig) :=
  w ← get_state; mret (getAvailableAgents w).

Definition getAgentStatus : ST (World Any) (gmap string AgentStatus) :=
  w ← get_state; mret (getAgentStatus w).

(** [agent ? agent.getConfig() : null] *)
Definition getAgent (agentType : string) : ST (World Any) (option AgentConfig) :=
  w ← get_state; mret (getConfig <$> getAgent agentType w).

(** [Partial<AgentConfig>]: [None] is a property the object does not have. *)
Record PartialAgentConfig := {
  p_name : option string;
  p_type : option string;
  p_enabled : option bool;
  p_role : option string;
  p_description : option string;
  p_timeout : option Z;
  p_retryAttempts : option Z;
  p_maxConcurrent : option Z;
}.

(** [{ ...currentConfig, ...config }] *)
Definition spread (currentConfig : AgentConfig) (config : PartialAgentConfig) : AgentConfig :=
  {| cfg_name := default (cfg_name currentConfig) (p_name config);
     cfg_type := default (cfg_type currentConfig) (p_type config);
     cfg_enabled := default (cfg_enabled currentConfig) (p_enabled config);
     cfg_role := default (cfg_role currentConfig) (p_role config);
     cfg_description := default (cfg_description currentConfig) (p_description config);
     cfg_timeout := default (cfg_timeout currentConfig) (p_timeout config);
     cfg_retryAttempts := default (cfg_retryAttempts currentConfig) (p_retryAttempts config);
     cfg_maxConcurrent := default (cfg_maxConcurrent currentConfig) (p_maxConcurrent config) |}.

Record UpdateResponse := {
  ur_success : bool;
  ur_agentType : string;
  ur_updatedConfig : AgentConfig;
  ur_message : string;
  ur_timestamp : string;
}.

Definition agent_not_found (agentType : string) : string :=
  "Agent '" +:+ agentType +:+ "' not found".

Definition updateAgentConfig (agentType : string) (config : PartialAgentConfig)
  : ST (World Any) UpdateResponse :=
  currentConfig ← getAgent agentType;
  match currentConfig with
  | None => throw (agent_not_found agentType)
  | Some currentConfig =>
      date ← now env;
      mret {| ur_success := true;
              ur_agentType := agentType;
              ur_updatedConfig := spread currentConfig config;
              ur_message := "Agent '" +:+ agentType
                              +:+ "' configuration updated successfully";
              ur_timestamp := toISOString env date |}
  end.

End Methods.

Arguments TaskEnvelope : clear implicits.
Arguments WorkflowResponse : clear implicits.

End AgentsService.

(** ** [AgentsController] (agents.controller.ts) and [WebSocketService] *)

(** What a controller method leaves to the framework: a response body, or
    an [HttpException] with its message and status. *)
Inductive HttpOutcome (A : Type) : Type :=
| Responded (body : A)
| HttpException (message : string) (status : nat).
Arguments Responded {A} body.
Arguments HttpException {A} message status.

Definition INTERNAL_SERVER_ERROR : nat := 500.
Definition NOT_FOUND : nat := 404.

Module AgentsController.
Section Methods.
Context {Any : Type} (env : Env Any).

(** [{ success: true, data }] *)
Record Body (A : Type) := {
  body_success : bool;
  body_data : A;
}.
Arguments body_success {A} _.
Arguments body_data {A} _.

(** [getAgent] (lines 167-187): the 404 thrown inside the [try] block is an
    [HttpException], which the [catch] block throws again. *)
Definition getAgent (type : string)
  : World Any → HttpOutcome (Body AgentConfig) * World Any := λ w,
  match AgentsService.getAgent type w with
  | (Resolved (Some agent), w') =>
      (Responded {| body_success := true; body_data := agent |}, w')
  | (Resolved None, w') =>
      (HttpException ("Agent '" +:+ type +:+ "' not found") NOT_FOUND, w')
  | (Rejected message, w') =>
      (HttpException ("Failed to get agent: " +:+ message) INTERNAL_SERVER_ERROR, w')
  end.

(** [executeTask] (lines 193-210); the DTO has the fields of a request. *)
Definition executeTask (executeTaskDto : TaskRequest Any)
  : World Any → HttpOutcome (ServiceResponse Any) * World Any := λ w,
  match executeAgentTask env (req_agentType executeTaskDto) (req_task executeTaskDto)
          (req_context executeTaskDto) (req_projectId executeTaskDto)
          (req_taskId executeTaskDto) w with
  | (Resolved result, w') => (Responded result, w')
  | (Rejected message, w') =>
      (HttpException ("Failed to execute task: " +:+ message) INTERNAL_SERVER_ERROR, w')
  end.

(** [executeWorkflow] (lines 244-255) *)
Definition executeWorkflow (executeWorkflowDto : Workflow)
  : World Any → HttpOutcome (AgentsService.WorkflowResponse Any) * World Any := λ w,
  match AgentsService.executeWorkflow env executeWorkflowDto w with
  | (Resolved result, w') => (Responded result, w')
  | (Rejected message, w') =>
      (HttpException ("Failed to execute workflow: " +:+ message)
         INTERNAL_SERVER_ERROR, w')
  end.

End Methods.
End AgentsController.

Module WebSocketService.

(** [executeAgentTask] (websocket.service.ts, lines 28-51): the [catch]
    block logs and throws the error again. *)
Definition executeAgentTask {Any} (env : Env Any) (payload : TaskRequest Any)
  : ST (World Any) (ServiceResponse Any) :=
  try_catch
    (executeAgentTask env (req_agentType payload) (req_task payload)
       (req_context payload) (req_projectId payload) (req_taskId payload))
    (λ message, throw message).

End WebSocketService.

(** ** More concrete cases *)

Module Cases.

(** An environment in which the input of the task "cycle" does not
    serialize. *)
Definition strict : Env string :=
  {| Date_now := Date_now Scenario.reliable;
     uuidv4 := uuidv4 Scenario.reliable;
     Math_random := Math_random Scenario.reliable;
     toISOString := toISOString Scenario.reliable;
     number_toString := number_toString Scenario.reliable;
     repo_save := repo_save Scenario.reliable;
     JSON_stringify := JSON_stringify Scenario.reliable;
     JSON_stringify_input := λ input,
       if decide (in_task input = "cycle")
       then Rejected "Converting circular structure to JSON"
       else Resolved (in_task input);
     previousResults := previousResults Scenario.reliable |}.

(** A store that refuses the write issued at tick 7 and no other. *)
Definition hiccup : Env string :=
  {| Date_now := Date_now Scenario.reliable;
     uuidv4 := uuidv4 Scenario.reliable;
     Math_random := Math_random Scenario.reliable;
     toISOString := toISOString Scenario.reliable;
     number_toString := number_toString Scenario.reliable;
     repo_save := λ n, if (n =? 7)%nat then Some "store down" else None;
     JSON_stringify := JSON_stringify Scenario.reliable;
     JSON_stringify_input := JSON_stringify_input Scenario.reliable;
     previousResults := previousResults Scenario.reliable |}.

(** A store that goes down after tick 7. *)
Definition down_later : Env string :=
  {| Date_now := Date_now Scenario.reliable;
     uuidv4 := uuidv4 Scenario.reliable;
     Math_random := Math_random Scenario.reliable;
     toISOString := toISOString Scenario.reliable;
     number_toString := number_toString Scenario.reliable;
     repo_save := λ n, if (7 <? n)%nat then Some "store down" else None;
     JSON_stringify := JSON_stringify Scenario.reliable;
     JSON_stringify_input := JSON_stringify_input Scenario.reliable;
     previousResults := previousResults Scenario.reliable |}.

(** A registry with an agent registered under "__proto__". *)
Definition proto_world : World string :=
  {| agents := <["__proto__" := Scenario.succeeding]> (<["ok" := Scenario.succeeding]> ∅);
     tick := 0; trace := [] |}.


(** Four enabled agents and a disabled reviewer. *)
Definition five : Injected string :=
  {| managerAgent := Scenario.succeeding;
     planningAgent := Scenario.succeeding;
     codeGenerationAgent := Scenario.failing;
     reviewAgent := Scenario.disabled;
     testingAgent := Scenario.crashing |}.

(** [step_A] under a condition. *)
Definition conditional_A : WorkflowStep :=
  {| ws_agentType := "ok"; ws_task := "A"; ws_dependencies := None;
     ws_condition := Some "previous.success" |}.

End Cases.

(** * Properties *)

(** ** The batch *)
Section BatchFacts.
Context {Any : Type} (env : Env Any).
Implicit Types (w : World Any) (request : TaskRequest Any)
  (suspended : Suspended Any) (promise : Promise Any)
  (requests : list (TaskRequest Any)) (promises : list (Promise Any)).

Ltac batch_unfold :=
  cbv [resume start processTask_resume processTask_start catch_block issue settle
    save run_execute now fresh_uuid random generateRequestId get_state at_tick
    mbind mret ST_bind ST_ret advance emit tick trace agents fst snd getAgent
    batch_entry awaits_left in_place negb];
  cbn [out_success out_error default].

Ltac batch_step :=
  match goal with
  | |- context [JSON_stringify_input env ?i] =>
      destruct (JSON_stringify_input env i) eqn:?
  | |- context [match out_success ?r with _ => _ end] => destruct (out_success r) eqn:?
  | |- context [match out_result ?r with _ => _ end] => destruct (out_result r) eqn:?
  | |- context [JSON_stringify env ?v] => destruct (JSON_stringify env v) eqn:?
  | |- context [repo_save env ?n] => destruct (repo_save env n) eqn:?
  end; cbv beta iota; cbn [out_success out_error default].

(** One resumption: the promise moves on, towards its end; what it comes to
    depends on the tick of the resumption and on nothing else of the
    world. *)
Lemma resume_spec request suspended w :
  ∃ promise w',
    resume env request suspended w = (Resolved promise, w') ∧
    agents w' = agents w ∧
    (awaits_left promise < awaits_left (inl suspended))%nat ∧
    in_place request promise ∧
    (tick w ≤ tick w')%nat ∧
    ∀ w0, tick w0 = tick w →
          (resume env request suspended w0).1 = Resolved promise ∧
          tick (resume env request suspended w0).2 = tick w'.
Proof.
  destruct w as [ag t tr].
  destruct suspended as [agent input st ae [[]|m]|st ae [result|m]
                        |st ae ret [[]|m]|ret [[]|m]];
    batch_unfold; repeat batch_step.
  all: eexists _, _; split; [reflexivity|]; split; [reflexivity|].
  all: split; [lia|]; split; [try exact I; try done|]; split; [lia|].
  all: intros [ag0 t0 tr0]; cbn; intros ->.
  all: rewrite ?Heqo, ?Heqo0, ?Heqo1, ?Heqb, ?Heqb0; by split.
Qed.

(** The start of a promise: it depends on the registry and on the tick of
    the call. An unregistered type is answered at once, the world
    untouched. *)
Lemma start_spec request w :
  ∃ promise w',
    start env request w = (Resolved promise, w') ∧
    agents w' = agents w ∧
    in_place request promise ∧
    (getAgent (req_agentType request) w = None →
     promise = inr (batch_entry request
                      (Rejected (not_available (req_agentType request)))) ∧
     w' = w) ∧
    (tick w ≤ tick w')%nat ∧
    ∀ w0, getAgent (req_agentType request) w0 = getAgent (req_agentType request) w →
          tick w0 = tick w →
          (start env request w0).1 = Resolved promise ∧
          tick (start env request w0).2 = tick w'.
Proof.
  destruct w as [ag t tr]. batch_unfold.
  destruct (ag !! req_agentType request) as [agent|] eqn:Hget; repeat batch_step.
  all: eexists _, _; split; [reflexivity|]; split; [reflexivity|].
  all: split; [try exact I; try done|]; split; [try done|]; split; [lia|].
  all: intros [ag0 t0 tr0]; cbn; intros -> ->.
  all: cbv beta iota; rewrite ?Heqo, ?Heqo0; by split.
Qed.

Lemma resume_at_fulfilled request moments entry w :
  resume_at env request moments (inr entry) w = (Resolved (inr entry), w).
Proof. by destruct moments. Qed.

Lemma resume_at_snoc request moments t promise0 w suspended w1 :
  resume_at env request moments promise0 w = (Resolved (inl suspended), w1) →
  (resume_at env request (moments ++ [t]) promise0 w).1
  = (resume env request suspended (at_tick t w1).2).1.
Proof.
  revert promise0 w. induction moments as [|t0 rest IH]; intros promise0 w.
  - cbn [resume_at app]. intros [= -> <-].
    unfold mbind, ST_bind. cbn [at_tick snd].
    match goal with
    | |- context [resume env request suspended ?w0] =>
        destruct (resume_spec request suspended w0) as (p & w' & -> & _)
    end.
    by destruct p.
  - destruct promise0 as [s0|entry]; [|by rewrite resume_at_fulfilled].
    cbn [resume_at app]. unfold mbind at 1 3, ST_bind at 1 3.
    unfold mbind at 1 2, ST_bind at 1 2. cbn [at_tick].
    match goal with
    | |- context [resume env request s0 ?w0] =>
        destruct (resume_spec request s0 w0) as (p & w' & -> & _)
    end.
    apply IH.
Qed.

(** The start of a promise in a batch is its start on its own, at the same
    tick. *)
Lemma on_its_own_start request w w1 promise w2 :
  agents w1 = agents w →
  start env request w1 = (Resolved promise, w2) →
  on_its_own env w request promise.
Proof.
  intros Hag Hstart. exists (tick w1), [].
  unfold alone, mbind, ST_bind. cbn [at_tick resume_at].
  destruct (start_spec request w1) as (p & w' & Hrun & _ & _ & _ & _ & Hext).
  rewrite Hstart in Hrun. injection Hrun as <- <-.
  match goal with
  | |- context [start env request ?w0] =>
      pose proof (Hext w0 ltac:(unfold getAgent; cbn; by rewrite Hag) eq_refl)
        as [Hsame _];
      destruct (start env request w0) as [o w0']
  end.
  cbn [fst] in Hsame. by subst o.
Qed.

(** A resumption in a batch is a resumption of the promise on its own, at
    the same tick. *)
Lemma on_its_own_resume request w suspended w1 promise w2 :
  on_its_own env w request (inl suspended) →
  resume env request suspended w1 = (Resolved promise, w2) →
  on_its_own env w request promise.
Proof.
  intros (t & moments & Halone) Hresume.
  exists t, (moments ++ [tick w1]).
  unfold alone, mbind, ST_bind in Halone |- *. cbn [at_tick] in Halone |- *.
  match goal with
  | |- context [start env request ?w0] =>
      destruct (start_spec request w0) as (p0 & w0' & Hstart & _)
  end.
  rewrite Hstart in Halone |- *.
  destruct (resume_at env request moments p0 w0') as [o wa] eqn:Hat.
  cbn [fst] in Halone. subst o.
  rewrite (resume_at_snoc _ _ (tick w1) _ _ _ _ Hat).
  destruct (resume_spec request suspended w1)
    as (p & w' & Hrun & _ & _ & _ & _ & Hext).
  rewrite Hresume in Hrun. injection Hrun as <- <-.
  apply Hext. reflexivity.
Qed.



Lemma start_all_spec w requests w1 :
  agents w1 = agents w →
  ∃ promises w2,
    start_all env requests w1 = (Resolved promises, w2) ∧
    agents w2 = agents w ∧
    Forall2 (promise_of env w) requests promises.
Proof.
  revert w1. induction requests as [|request rest IH]; intros w1 Hag.
  { eexists _, _. split; [reflexivity|]. by split. }
  cbn [start_all]. unfold mbind, ST_bind.
  destruct (start_spec request w1) as (p & w2 & Hstart & Hag2 & Hplace & Hnone & _).
  rewrite Hstart.
  destruct (IH w2 ltac:(congruence)) as (ps & w3 & -> & Hag3 & Hall).
  eexists _, _. split; [reflexivity|]. split; [done|].
  constructor; [|done]. split_and!.
  - exact (on_its_own_start request w w1 p w2 Hag Hstart).
  - done.
  - intros Hget. apply Hnone. unfold getAgent in *. by rewrite Hag.
Qed.

Lemma event_loop_spec w requests order promises w1 :
  agents w1 = agents w →
  Forall2 (promise_of env w) requests promises →
  ∃ promises' w2,
    event_loop env requests order promises w1 = (Resolved promises', w2) ∧
    agents w2 = agents w ∧
    Forall2 (promise_of env w) requests promises'.
Proof.
  revert promises w1. induction order as [|i rest IH]; intros promises w1 Hag Hall.
  { by eexists _, _. }
  cbn [event_loop].
  destruct (requests !! i) as [request|] eqn:Hi; [|by apply IH].
  destruct (promises !! i) as [[suspended|entry]|] eqn:Hp; [|by apply IH..].
  unfold mbind, ST_bind.
  destruct (resume_spec request suspended w1) as (p & w2 & Hrun & Hag2 & _ & Hplace & _).
  rewrite Hrun. apply IH; [congruence|].
  rewrite <- (list_insert_id requests i request Hi).
  apply Forall2_insert; [done|].
  destruct (Forall2_lookup_lr _ _ _ _ _ _ Hall Hi Hp) as (Hown & _ & Hnone).
  split_and!.
  - exact (on_its_own_resume request w suspended w1 p w2 Hown Hrun).
  - done.
  - intros Hget. by specialize (Hnone Hget).
Qed.

Lemma event_loop_app requests order1 order2 promises w :
  event_loop env requests (order1 ++ order2) promises w
  = (promises' ← event_loop env requests order1 promises;
     event_loop env requests order2 promises') w.
Proof.
  revert promises w. induction order1 as [|i rest IH]; intros promises w; [done|].
  cbn [event_loop app].
  destruct (requests !! i) as [request|]; [|apply IH].
  destruct (promises !! i) as [[suspended|entry]|]; [|apply IH..].
  unfold mbind, ST_bind.
  destruct (resume env request suspended w) as [[p|e] w1]; [|done].
  rewrite IH. reflexivity.
Qed.

(** One round of turns: every promise that could still stop at [S k]
    [await]s can stop at [k] more. *)
Lemma event_loop_round requests k m j promises w :
  length promises = length requests →
  (j + m = length requests)%nat →
  (∀ i p, promises !! i = Some p →
          (awaits_left p ≤ if decide (i < j)%nat then k else S k)%nat) →
  ∃ promises' w',
    event_loop env requests (seq j m) promises w = (Resolved promises', w') ∧
    length promises' = length requests ∧
    ∀ i p, promises' !! i = Some p → (awaits_left p ≤ k)%nat.
Proof.
  revert j promises w. induction m as [|m IH]; intros j promises w Hlen Hj Hleft.
  { eexists _, _. split; [reflexivity|]. split; [done|].
    intros i p Hi. specialize (Hleft i p Hi).
    apply lookup_lt_Some in Hi. rewrite decide_True in Hleft by lia. done. }
  cbn [seq event_loop].
  destruct (lookup_lt_is_Some_2 requests j ltac:(lia)) as [request Hrequest].
  rewrite Hrequest.
  destruct (promises !! j) as [p|] eqn:Hp;
    [|exfalso; apply lookup_ge_None in Hp; lia].
  assert (∀ p', (awaits_left p' ≤ k)%nat →
            ∀ i q, <[j := p']> promises !! i = Some q →
                   (awaits_left q ≤ if decide (i < S j)%nat then k else S k)%nat)
    as Hnext.
  { intros p' Hp' i q. destruct (decide (i = j)) as [->|Hne].
    - rewrite list_lookup_insert_eq by lia. intros [= <-].
      by rewrite decide_True by lia.
    - rewrite list_lookup_insert_ne by done. intros Hi.
      specialize (Hleft i q Hi). repeat case_decide; lia. }
  pose proof (Hleft j p Hp) as Hbound. rewrite decide_False in Hbound by lia.
  destruct p as [suspended|entry].
  - unfold mbind, ST_bind.
    destruct (resume_spec request suspended w) as (p' & w1 & -> & _ & Hless & _).
    apply IH; [by rewrite length_insert|lia|].
    apply Hnext. lia.
  - apply IH; [done|lia|].
    rewrite <- (list_insert_id promises j (inr entry) Hp).
    apply Hnext. cbn. lia.
Qed.

Lemma awaits_left_le promise : (awaits_left promise ≤ 4)%nat.
Proof. destruct promise as [[]|]; cbn; lia. Qed.

(** After the four rounds of [turns] every promise is fulfilled. *)
Lemma event_loop_turns requests promises w :
  length promises = length requests →
  ∃ promises' w',
    event_loop env requests (turns (length requests)) promises w
    = (Resolved promises', w') ∧
    ∀ i p, promises' !! i = Some p → awaits_left p = 0%nat.
Proof.
  intros Hlen. unfold turns. cbn [replicate mjoin list_join].
  rewrite app_nil_r.
  rewrite event_loop_app. unfold mbind, ST_bind.
  destruct (event_loop_round requests 3 (length requests) 0 promises w)
    as (ps1 & w1 & -> & Hlen1 & H1); [done|done|..].
  { intros i p _. rewrite decide_False by lia. apply awaits_left_le. }
  rewrite event_loop_app. unfold mbind, ST_bind.
  destruct (event_loop_round requests 2 (length requests) 0 ps1 w1)
    as (ps2 & w2 & -> & Hlen2 & H2); [done|done|..].
  { intros i p Hi. rewrite decide_False by lia. by apply (H1 i). }
  rewrite event_loop_app. unfold mbind, ST_bind.
  destruct (event_loop_round requests 1 (length requests) 0 ps2 w2)
    as (ps3 & w3 & -> & Hlen3 & H3); [done|done|..].
  { intros i p Hi. rewrite decide_False by lia. by apply (H2 i). }
  destruct (event_loop_round requests 0 (length requests) 0 ps3 w3)
    as (ps4 & w4 & -> & Hlen4 & H4); [done|done|..].
  { intros i p Hi. rewrite decide_False by lia. by apply (H3 i). }
  eexists _, _. split; [reflexivity|].
  intros i p Hi. specialize (H4 i p Hi). lia.
Qed.

Lemma Promise_all_fulfilled promises :
  (∀ i p, promises !! i = Some p → awaits_left p = 0%nat) →
  inr <$> Promise_all promises = promises.
Proof.
  induction promises as [|p rest IH]; intros Hall; [done|].
  pose proof (Hall 0%nat p eq_refl) as Hp.
  destruct p as [[]|entry]; try discriminate Hp.
  cbn. f_equal. apply IH. intros i q Hi. by apply (Hall (S i)).
Qed.

(** [executeTasks] always resolves: with the values of promises that are
    all fulfilled, each the promise of the request at its place. *)
Lemma executeTasks_promises order requests w :
  ∃ results w',
    executeTasks env order requests w = (Resolved results, w') ∧
    agents w' = agents w ∧
    Forall2 (promise_of env w) requests (inr <$> results).
Proof.
  unfold executeTasks, mbind, ST_bind.
  destruct (start_all_spec w requests w eq_refl) as (ps0 & w0 & -> & Hag0 & Hall0).
  rewrite event_loop_app. unfold mbind, ST_bind.
  destruct (event_loop_spec w requests order ps0 w0 Hag0 Hall0)
    as (ps1 & w1 & -> & Hag1 & Hall1).
  destruct (event_loop_spec w requests (turns (length requests)) ps1 w1 Hag1 Hall1)
    as (ps2 & w2 & Hrun & Hag2 & Hall2).
  destruct (event_loop_turns requests ps1 w1) as (ps2' & w2' & Hrun' & Hdone).
  { symmetry. by eapply Forall2_length. }
  rewrite Hrun in Hrun' |- *. injection Hrun' as <- <-.
  eexists _, _. split; [reflexivity|]. split; [done|].
  by rewrite Promise_all_fulfilled.
Qed.

(** *** A batch of one request *)








Lemma executeTasks_agents order requests w :
  agents (executeTasks env order requests w).2 = agents w.
Proof.
  destruct (executeTasks_promises order requests w) as (results & w' & -> & Hag & _).
  exact Hag.
Qed.

(** *** Two batches that differ in one agent *)











End BatchFacts.

(** ** The wrapper, the registry and the workflows *)

Section Facts.
Context {Any : Type} (env : Env Any).
Implicit Types (w : World Any) (agent : BaseAgent Any) (input : AgentInput Any).

Ltac unfold_run :=
  cbv [processTask processTask_try processTask_catch with_local try_catch
    update_local set_local get_local lift throwing throw save run_execute
    now fresh_uuid random get_state mbind mret ST_bind ST_ret fmap ST_fmap
    advance emit tick trace agents the_local default option_fmap option_map id
    fst snd Nat.add].

Ltac run_step :=
  match goal with
  | |- context [JSON_stringify_input env ?i] =>
      destruct (JSON_stringify_input env i) eqn:?
  | |- context [execute ?a ?n ?i] => destruct (execute a n i) eqn:?
  | |- context [match out_success ?r with _ => _ end] => destruct (out_success r) eqn:?
  | |- context [match out_result ?r with _ => _ end] => destruct (out_result r) eqn:?
  | |- context [JSON_stringify env ?v] => destruct (JSON_stringify env v) eqn:?
  | |- context [repo_save env ?n] => destruct (repo_save env n) eqn:?
  end; cbv beta iota.

Ltac run_all := unfold_run; repeat run_step.

Lemma processTask_agents agent input w :
  agents (processTask env agent input w).2 = agents w.
Proof. destruct w as [ag t tr]. run_all; reflexivity. Qed.

Lemma processTask_success agent input w r w' :
  processTask env agent input w = (Resolved r, w') →
  out_success r = true →
  ∃ result, execute agent (4 + tick w) input = Resolved result ∧
            out_success result = true ∧
            r = with_execution result (uuidv4 env (1 + tick w))
                  (Date_now env (5 + tick w) - Date_now env (tick w)).
Proof.
  destruct w as [ag t tr]. run_all; intros [= <- <-]; cbn; intros Hs; try congruence.
  all: simplify_eq; eauto.
Qed.

(** Where an event is in a list of events. *)
Ltac find_event :=
  first [apply list_elem_of_here | apply list_elem_of_further; find_event].

Ltac after_rejected_tail :=
  eexists _, _; split; [reflexivity|]; split; [|reflexivity];
  first [left; find_event | right; eexists; find_event].

Ltac after_rejected earlier := exists earlier; after_rejected_tail.

(** C6, amended. A terminal record the wrapper hands to the store comes
    from one of two places. Saved by the [try] block (line 61), it carries
    what lines 54-56 assigned from the result the executor returned:
    [completed] with the serialized [result] for [output] when the result is
    successful, [failed] with [result.error] for [output] when it is not,
    and [result.error] for [error] in both cases, so that [output] is
    present on a failed record whenever the result has an error message.
    Saved by the [catch] block (line 81), it is [failed] and its [error] is
    the message of the exception; its [output] is what the [try] block had
    assigned before the exception: nothing when the executor or
    [JSON.stringify] threw, and the [output] of the rejected record when the
    exception is the store's refusal of an earlier write (the [running]
    record, without output, or the record of line 61, with its output). *)
Theorem terminal_record_fields agent input w r :
  written r (events_since w (processTask env agent input w).2) →
  terminal r →
  (∃ result,
     execute agent (4 + tick w) input = Resolved result ∧
     ae_status r = (if out_success result then completed else failed) ∧
     ae_error r = out_error result ∧
     if out_success result
     then match out_result result with
          | Some v => JSON_stringify env v = Resolved (ae_output r)
          | None => ae_output r = None
          end
     else ae_output r = out_error result) ∨
  (∃ message,
     ae_status r = failed ∧ ae_error r = Some message ∧
     ((execute agent (4 + tick w) input = Rejected message ∧ ae_output r = None) ∨
      (∃ result v,
         execute agent (4 + tick w) input = Resolved result ∧
         out_success result = true ∧ out_result result = Some v ∧
         JSON_stringify env v = Rejected message ∧ ae_output r = None) ∨
      (∃ earlier rejected later,
         events_since w (processTask env agent input w).2
         = earlier ++ EvSaveFailed rejected message :: later ∧
         written r later ∧ ae_output r = ae_output rejected))).
Proof.
  unfold written. destruct w as [ag t tr]. unfold events_since.
  run_all.
  all: rewrite <- ?app_assoc, ?drop_app_length, ?drop_all; cbn [app].
  all: intros [Hin|[msg Hin]] [Hterm|Hterm].
  all: set_unfold in Hin; destruct_or?; simplify_eq/=.
  all: first
    [ left; eexists; split; [reflexivity|];
      repeat match goal with H : out_success _ = _ |- _ => rewrite H end;
      repeat match goal with H : out_result _ = _ |- _ => rewrite H end;
      split_and!; first [reflexivity|eassumption|done]
    | right; eexists; split; [reflexivity|]; split; [reflexivity|];
      first
        [ left; split; [reflexivity|reflexivity]
        | right; left; eexists _, _; split_and!;
          first [reflexivity|eassumption]
        | right; right; after_rejected (@nil (Event Any))
        | right; right; eexists [_]; after_rejected_tail
        | right; right; eexists [_; _]; after_rejected_tail
        | right; right; eexists [_; _; _]; after_rejected_tail ] ].
Qed.

(** C7, amended. When the input serializes and the store rejects none of
    the writes this invocation issues, [processTask] resolves and the events
    it adds are exactly: the write of the [running] record, the call of the
    executor, and one write of the same record in a terminal state
    ([completed] exactly when the returned result is successful); that
    terminal record is what the store then holds. *)
Theorem record_lifecycle_when_store_accepts agent input w serialized :
  JSON_stringify_input env input = Resolved serialized →
  (∀ r message,
     EvSaveFailed r message ∉ events_since w (processTask env agent input w).2) →
  ∃ r1 r2 out w',
    processTask env agent input w = (Resolved out, w') ∧
    events_since w w' =
      [EvSave r1; EvExecute (cfg_type (config agent)) input; EvSave r2] ∧
    ae_status r1 = running ∧
    terminal r2 ∧ ae_id r2 = ae_id r1 ∧
    (ae_status r2 = completed ↔ out_success out = true) ∧
    stored (events_since w w') (ae_id r1) = Some r2 ∧
    record_lifecycle (events_since w w').
Proof.
  intros Hs. destruct w as [ag t tr].
  assert (∀ r1 ty r2, ae_status r1 = running → terminal r2 → ae_id r2 = ae_id r1 →
            stored [EvSave r1; EvExecute ty input; EvSave r2] (ae_id r1) = Some r2 ∧
            record_lifecycle [EvSave r1; EvExecute ty input; EvSave r2]) as Hshape.
  { intros r1 ty r2 Hrun Hterm Hid. split.
    - unfold stored. cbn [writes omap]. unfold filter; cbn.
      rewrite !decide_True by done. reflexivity.
    - exists r1, ty, input, [EvSave r2], r2. done. }
  unfold events_since.
  run_all; try congruence.
  all: cbn [trace]; rewrite <- ?app_assoc, ?drop_app_length; cbn [app]; intros Hok.
  all: try (exfalso;
            match goal with
            | H : ∀ r message, EvSaveFailed r message ∉ ?events |- _ =>
                match events with
                | context [EvSaveFailed ?r0 ?m] => apply (H r0 m); find_event
                end
            end).
  all: eexists _, _, _, _; split; [reflexivity|].
  all: cbn [trace]; rewrite <- ?app_assoc, ?drop_app_length; cbn [app].
  all: split; [reflexivity|].
  all: split; [reflexivity|].
  all: match goal with
       | |- terminal ?r ∧ _ =>
           assert (terminal r) as Hterm by (unfold terminal; cbn; auto)
       end.
  all: split; [exact Hterm|]; split; [reflexivity|].
  all: split; [cbn; split; intros; congruence|].
  all: apply Hshape; [reflexivity|exact Hterm|reflexivity].
Qed.

(** *** [executeTask] *)

Ltac unfold_registry :=
  cbv [executeTask executeAgentTask settled get_state try_catch throw mbind mret
       ST_bind ST_ret fmap ST_fmap now generateRequestId random getAgent
       built_input wrapper_start].

Lemma executeTask_not_found agentType task context projectId taskId w :
  getAgent agentType w = None →
  executeTask env agentType task context projectId taskId w
  = (Rejected (not_available agentType), w).
Proof. unfold getAgent. intros H. unfold_registry. by rewrite H. Qed.

Lemma executeTask_registered agentType task context projectId taskId w agent :
  getAgent agentType w = Some agent →
  executeTask env agentType task context projectId taskId w
  = match processTask env agent
            (built_input env task context projectId taskId (tick w))
            (wrapper_start w) with
    | (Resolved r, w') =>
        if out_success r then (Resolved r, w')
        else (Rejected (default "" (out_error r)), w')
    | (Rejected message, w') => (Rejected message, w')
    end.
Proof.
  unfold getAgent. intros H. unfold_registry. rewrite H.
  cbn [tick advance].
  destruct (processTask _ _ _ _) as [[r|e] w']; [|reflexivity].
  by destruct (out_success r).
Qed.

Lemma executeTask_returns_success agentType task context projectId taskId w r w' :
  executeTask env agentType task context projectId taskId w = (Resolved r, w') →
  out_success r = true.
Proof.
  destruct (getAgent agentType w) as [agent|] eqn:Hget.
  - rewrite (executeTask_registered _ _ _ _ _ _ _ Hget).
    destruct (processTask _ _ _ _) as [[r0|e] w0]; [|done].
    destruct (out_success r0) eqn:Hs; [|done]. by intros [= <- <-].
  - by rewrite executeTask_not_found.
Qed.

Lemma executeTask_agents agentType task context projectId taskId w :
  agents (executeTask env agentType task context projectId taskId w).2 = agents w.
Proof.
  destruct (getAgent agentType w) as [agent|] eqn:Hget.
  - rewrite (executeTask_registered _ _ _ _ _ _ _ Hget).
    pose proof (processTask_agents agent
      (built_input env task context projectId taskId (tick w)) (wrapper_start w)) as Hp.
    destruct (processTask _ _ _ _) as [[r|e] w']; cbn in Hp |- *.
    + by destruct (out_success r).
    + done.
  - by rewrite executeTask_not_found.
Qed.

Lemma processTask_absorbs_throw agent input w message serialized :
  execute agent (4 + tick w) input = Rejected message →
  JSON_stringify_input env input = Resolved serialized →
  accepts_writes_from env (tick w) →
  ∃ r w', processTask env agent input w = (Resolved r, w') ∧
          out_success r = false ∧ out_error r = Some message.
Proof.
  intros Hx Hs Hok. destruct w as [ag t tr]. cbn [tick] in Hok, Hx.
  pose proof (Hok (3 + t)%nat ltac:(lia)) as H3.
  pose proof (Hok (7 + t)%nat ltac:(lia)) as H7.
  cbn [Nat.add] in H3, H7, Hx. clear Hok.
  run_all; try congruence.
  eexists _, _; split; [reflexivity|]. cbn. split; congruence.
Qed.

(** C1, amended. [executeTask] on a registered type returns only successful
    results: what the wrapper [processTask] resolves with is returned when
    [success] is true and thrown again, as an [Error] with [result.error] for
    message, when it is false, so every executor failure reaches the caller
    as an exception. The conversion of a thrown executor exception into a
    result with [success: false] is the wrapper's (shown here for a store
    that accepts its writes). An unregistered type throws at once, the world
    untouched. [AgentsService.executeAgentTask] always resolves, and answers
    every exception of [executeTask], agent-not-found included, with
    [success: false]. *)
Theorem executeTask_failure_policy agentType task context projectId taskId w :
  let run := executeTask env agentType task context projectId taskId w in
  let input := built_input env task context projectId taskId (tick w) in
  (getAgent agentType w = None → run = (Rejected (not_available agentType), w)) ∧
  (∀ agent, getAgent agentType w = Some agent →
     (∀ r w', run = (Resolved r, w') →
        out_success r = true ∧
        processTask env agent input (wrapper_start w) = (Resolved r, w')) ∧
     (∀ r w', processTask env agent input (wrapper_start w) = (Resolved r, w') →
        out_success r = false →
        run = (Rejected (default "" (out_error r)), w')) ∧
     (∀ message w',
        processTask env agent input (wrapper_start w) = (Rejected message, w') →
        run = (Rejected message, w')) ∧
     (executor_failure (execute agent (7 + tick w) input) →
        ∃ message, run.1 = Rejected message) ∧
     (∀ message serialized,
        execute agent (7 + tick w) input = Rejected message →
        JSON_stringify_input env input = Resolved serialized →
        accepts_writes_from env (tick w) →
        ∃ r w', processTask env agent input (wrapper_start w) = (Resolved r, w') ∧
                out_success r = false ∧ out_error r = Some message ∧
                run = (Rejected message, w'))) ∧
  (∃ response w',
     executeAgentTask env agentType task context projectId taskId w
     = (Resolved response, w') ∧
     match run.1 with
     | Resolved r => sr_success response = true ∧ sr_result response = Some r
     | Rejected message =>
         sr_success response = false ∧ sr_error response = Some message
     end).
Proof.
  intros run input. split; [|split].
  - apply executeTask_not_found.
  - intros agent Hget. subst run.
    rewrite (executeTask_registered _ _ _ _ _ _ _ Hget). fold input.
    split; [|split; [|split; [|split]]].
    + intros r w'. destruct (processTask _ _ _ _) as [[r0|e] w0] eqn:Hp; [|done].
      destruct (out_success r0) eqn:Hs; intros [= <- <-]; done.
    + intros r w' -> Hs. by rewrite Hs.
    + by intros message w' ->.
    + intros Hfail.
      destruct (processTask _ _ _ _) as [[r0|e] w0] eqn:Hp; [|by eexists].
      destruct (out_success r0) eqn:Hs; [|by eexists].
      destruct (processTask_success _ _ _ _ _ Hp Hs) as (result & Hx & Hok & _).
      cbn in Hx. cbn in Hfail. rewrite Hx in Hfail. cbn in Hfail. congruence.
    + intros message serialized Hx Hser Hok.
      destruct (processTask_absorbs_throw agent input (wrapper_start w)
                  message serialized) as (r & w' & Hp & Hs & He); [done|done|..].
      { intros n Hn. apply Hok. cbn in Hn. lia. }
      exists r, w'. rewrite Hp, Hs, He. done.
  - subst run. unfold executeAgentTask, try_catch, mbind, ST_bind, mret, ST_ret, now.
    destruct (executeTask _ _ _ _ _ _ _) as [[r|e] w']; cbn; by eexists _, _.
Qed.

(** C5, amended. Registering an executor whose configuration has
    [enabled == false] resolves without an error and leaves the world, the
    registry map included, as it was: [getAgent] answers for every type as
    before the call. When the type was not registered before, [getAgent]
    finds nothing and [executeTask] on that type throws the agent-not-found
    error at once, with no record created (the world, trace included, is
    unchanged). *)
Theorem registerAgent_disabled type agent w :
  isEnabled agent = false →
  registerAgent type agent w = (Resolved (), w) ∧
  (∀ type', getAgent type' (registerAgent type agent w).2 = getAgent type' w) ∧
  (getAgent type w = None →
   getAgent type (registerAgent type agent w).2 = None ∧
   ∀ task context projectId taskId,
     executeTask env type task context projectId taskId (registerAgent type agent w).2
     = (Rejected (not_available type), w)).
Proof.
  intros Hdis.
  assert (registerAgent type agent w = (Resolved (), w)) as Hreg.
  { unfold registerAgent. by rewrite Hdis. }
  rewrite Hreg. cbn [snd]. split_and!; [done|done|].
  intros Hnone. split; [done|]. intros. by apply executeTask_not_found.
Qed.

(** *** [orchestrateWorkflow] *)

Lemma skips_true step (res : gmap string (AgentOutput Any)) :
  skips step res = true ↔
  ∃ dependencies dep,
    ws_dependencies step = Some dependencies ∧ dep ∈ dependencies ∧ res !! dep = None.
Proof.
  unfold skips, missingDeps. destruct (ws_dependencies step) as [deps|];
    [|split; [discriminate|intros (? & ? & ? & _); discriminate]].
  rewrite andb_true_iff, !Nat.ltb_lt. split.
  - intros [_ Hlen].
    destruct (List.filter _ deps) as [|dep l] eqn:Hf; [cbn in Hlen; lia|].
    assert (In dep (List.filter (λ dep, negb (Map_has res dep)) deps)) as Hin
      by (rewrite Hf; by left).
    apply filter_In in Hin as [Hin Hhas].
    exists deps, dep. split_and!; [done|by apply list_elem_of_In|].
    unfold Map_has in Hhas. by destruct (res !! dep).
  - intros (deps' & dep & [= <-] & Hin & Hnone).
    apply list_elem_of_In in Hin.
    assert (In dep (List.filter (λ dep, negb (Map_has res dep)) deps)) as Hf.
    { apply filter_In. split; [done|]. unfold Map_has. by rewrite Hnone. }
    split.
    + destruct deps; [done|cbn; lia].
    + destruct (List.filter _ deps); [done|cbn; lia].
Qed.

Lemma workflow_loop_skip name step rest log res w :
  skips step res = true →
  workflow_loop env name (step :: rest) log res w = workflow_loop env name rest log res w.
Proof. intros H. cbn. by rewrite H. Qed.

Lemma workflow_loop_completed name step rest log res w result w' :
  skips step res = false →
  step_call env step res w = (Resolved result, w') →
  workflow_loop env name (step :: rest) log res w
  = workflow_loop env name rest (log ++ [completed_entry step result])
      (<[ws_task step := result]> res) w'.
Proof. intros Hs Hx. cbn. by rewrite Hs, Hx. Qed.

Lemma workflow_loop_failed name step rest log res w message w' :
  skips step res = false →
  step_call env step res w = (Rejected message, w') →
  workflow_loop env name (step :: rest) log res w
  = if bool_decide (name ≠ "non-critical")
    then (Rejected message, w')
    else workflow_loop env name rest (log ++ [failed_entry step message]) res w'.
Proof. intros Hs Hx. cbn. by rewrite Hs, Hx. Qed.

Lemma workflow_loop_app name before after log res w :
  workflow_loop env name (before ++ after) log res w
  = match workflow_loop env name before log res w with
    | (Resolved (log', res'), w') => workflow_loop env name after log' res' w'
    | (Rejected message, w') => (Rejected message, w')
    end.
Proof.
  revert log res w. induction before as [|step rest IH]; intros log res w; [done|].
  cbn [app]. destruct (skips step res) eqn:Hs.
  - rewrite !workflow_loop_skip by done. apply IH.
  - destruct (step_call env step res w) as [[result|message] w'] eqn:Hx.
    + rewrite !(workflow_loop_completed _ _ _ _ _ _ _ _ Hs Hx). apply IH.
    + rewrite !(workflow_loop_failed _ _ _ _ _ _ _ _ Hs Hx).
      case_bool_decide; [done|apply IH].
Qed.

(** Invariants of the loop: what every attempted step preserves holds of
    the accumulators the loop resolves with. *)
Lemma workflow_loop_invariant
    (P : list (StepEntry Any) → gmap string (AgentOutput Any) → World Any → Prop) name :
  (∀ step log res w result w',
     P log res w → skips step res = false →
     step_call env step res w = (Resolved result, w') →
     P (log ++ [completed_entry step result]) (<[ws_task step := result]> res) w') →
  (∀ step log res w message w',
     P log res w → skips step res = false →
     step_call env step res w = (Rejected message, w') →
     P (log ++ [failed_entry step message]) res w') →
  ∀ steps log res w log' res' w',
    P log res w →
    workflow_loop env name steps log res w = (Resolved (log', res'), w') →
    P log' res' w'.
Proof.
  intros Hok Hfail steps.
  induction steps as [|step rest IH]; intros log res w log' res' w' HP.
  { by intros [= <- <- <-]. }
  destruct (skips step res) eqn:Hs.
  - rewrite workflow_loop_skip by done. by apply IH.
  - destruct (step_call env step res w) as [[result|message] w1] eqn:Hx.
    + rewrite (workflow_loop_completed _ _ _ _ _ _ _ _ Hs Hx). apply IH. eauto.
    + rewrite (workflow_loop_failed _ _ _ _ _ _ _ _ Hs Hx).
      case_bool_decide; [done|]. apply IH. eauto.
Qed.

Lemma workflow_loop_log name steps log res w log' res' w' :
  workflow_loop env name steps log res w = (Resolved (log', res'), w') →
  ∃ new, log' = log ++ new ∧ sublist (se_step <$> new) steps.
Proof.
  revert log res w. induction steps as [|step rest IH]; intros log res w.
  { intros [= <- <- <-]. exists []. by rewrite app_nil_r. }
  destruct (skips step res) eqn:Hs.
  - rewrite workflow_loop_skip by done. intros H.
    destruct (IH _ _ _ H) as (new & -> & Hsub). exists new. split; [done|].
    by apply sublist_cons.
  - destruct (step_call env step res w) as [[result|message] w1] eqn:Hx.
    + rewrite (workflow_loop_completed _ _ _ _ _ _ _ _ Hs Hx). intros H.
      destruct (IH _ _ _ H) as (new & -> & Hsub).
      exists (completed_entry step result :: new). rewrite <- app_assoc.
      split; [done|]. cbn. by apply sublist_skip.
    + rewrite (workflow_loop_failed _ _ _ _ _ _ _ _ Hs Hx).
      case_bool_decide; [done|]. intros Hrest.
      destruct (IH _ _ _ Hrest) as (new & -> & Hsub).
      exists (failed_entry step message :: new). rewrite <- app_assoc.
      split; [done|]. cbn. by apply sublist_skip.
Qed.

Lemma workflow_loop_non_critical steps log res w :
  ∃ log' res' w',
    workflow_loop env "non-critical" steps log res w = (Resolved (log', res'), w').
Proof.
  revert log res w. induction steps as [|step rest IH]; intros log res w.
  { by eexists _, _, _. }
  destruct (skips step res) eqn:Hs.
  - rewrite workflow_loop_skip by done. apply IH.
  - destruct (step_call env step res w) as [[result|message] w1] eqn:Hx.
    + rewrite (workflow_loop_completed _ _ _ _ _ _ _ _ Hs Hx). apply IH.
    + rewrite (workflow_loop_failed _ _ _ _ _ _ _ _ Hs Hx).
      rewrite bool_decide_false by (intros Hn; by apply Hn). apply IH.
Qed.

Lemma orchestrateWorkflow_loop workflow w :
  orchestrateWorkflow env workflow w
  = match workflow_loop env (wf_name workflow) (wf_steps workflow) [] ∅ w with
    | (Resolved (executedSteps, stepResults), w') =>
        (Resolved {| rep_workflow := wf_name workflow;
                     rep_totalSteps := length (wf_steps workflow);
                     rep_completedSteps := count_status completed executedSteps;
                     rep_failedSteps := count_status failed executedSteps;
                     rep_results := stepResults;
                     rep_steps := executedSteps |}, w')
    | (Rejected message, w') => (Rejected message, w')
    end.
Proof.
  unfold orchestrateWorkflow, mbind, ST_bind.
  by destruct (workflow_loop _ _ _ _ _ _) as [[[log res]|message] w'].
Qed.

(** C2. When a step that is reached and attempted fails, a workflow whose
    name is not "non-critical" rejects with that failure at once, in the
    world that step's call left: whatever steps follow, none is attempted.
    A workflow named "non-critical" appends the failed entry to the step
    log, goes on with the next step, and returns a report whose log holds
    that entry. *)
Theorem workflow_failure_propagation workflow before step after w log res w1 message w2 :
  wf_steps workflow = before ++ step :: after →
  workflow_loop env (wf_name workflow) before [] ∅ w = (Resolved (log, res), w1) →
  skips step res = false →
  step_call env step res w1 = (Rejected message, w2) →
  (wf_name workflow ≠ "non-critical" →
     orchestrateWorkflow env workflow w = (Rejected message, w2)) ∧
  (wf_name workflow = "non-critical" →
     workflow_loop env (wf_name workflow) (wf_steps workflow) [] ∅ w
     = workflow_loop env (wf_name workflow) after
         (log ++ [failed_entry step message]) res w2 ∧
     ∃ report w' later,
       orchestrateWorkflow env workflow w = (Resolved report, w') ∧
       rep_steps report = log ++ failed_entry step message :: later).
Proof.
  intros Hsteps Hbefore Hs Hx.
  assert (workflow_loop env (wf_name workflow) (wf_steps workflow) [] ∅ w
          = if bool_decide (wf_name workflow ≠ "non-critical")
            then (Rejected message, w2)
            else workflow_loop env (wf_name workflow) after
                   (log ++ [failed_entry step message]) res w2) as Hloop.
  { rewrite Hsteps, workflow_loop_app, Hbefore.
    apply workflow_loop_failed; done. }
  split.
  - intros Hname. rewrite orchestrateWorkflow_loop, Hloop.
    by rewrite bool_decide_true.
  - intros Hname. rewrite bool_decide_false in Hloop by (intros Hn; by apply Hn).
    split; [done|].
    rewrite orchestrateWorkflow_loop, Hloop. rewrite Hname.
    destruct (workflow_loop_non_critical after (log ++ [failed_entry step message])
                res w2) as (log' & res' & w' & Hafter).
    rewrite Hafter.
    destruct (workflow_loop_log _ _ _ _ _ _ _ _ Hafter) as (later & -> & _).
    eexists _, _, later. split; [reflexivity|]. cbn. by rewrite <- app_assoc.
Qed.

(** What the loop adds after a state: the new entries are attempts of the
    remaining steps, in order, and a key is in the final results map exactly
    when it was there already or a new entry with that task string is
    completed. *)
Lemma workflow_loop_new_keys name steps log res w log' res' w' :
  workflow_loop env name steps log res w = (Resolved (log', res'), w') →
  ∃ later,
    log' = log ++ later ∧
    sublist (se_step <$> later) steps ∧
    ∀ key,
      is_Some (res' !! key) ↔
      is_Some (res !! key) ∨
      ∃ e, e ∈ later ∧ se_status e = completed ∧ ws_task (se_step e) = key.
Proof.
  revert log res w. induction steps as [|step rest IH]; intros log res w.
  { intros [= <- <- <-]. exists []. rewrite app_nil_r. split_and!; [done|done|].
    intros key. split; [by left|]. intros [?|(e & He & _)]; [done|].
    destruct (not_elem_of_nil _ He). }
  destruct (skips step res) eqn:Hs.
  - rewrite workflow_loop_skip by done. intros Hloop.
    destruct (IH _ _ _ Hloop) as (later & -> & Hsub & Hkeys).
    exists later. split_and!; [done|by apply sublist_cons|done].
  - destruct (step_call env step res w) as [[result|message] w1] eqn:Hx.
    + rewrite (workflow_loop_completed _ _ _ _ _ _ _ _ Hs Hx). intros Hloop.
      destruct (IH _ _ _ Hloop) as (later & -> & Hsub & Hkeys).
      exists (completed_entry step result :: later). rewrite <- app_assoc.
      split_and!; [done|by apply sublist_skip|].
      intros key. rewrite Hkeys. split.
      * intros [Hin|(e & He & Hst & Hk)].
        -- destruct (decide (ws_task step = key)) as [<-|Hne].
           ++ right. exists (completed_entry step result).
              split_and!; [apply list_elem_of_here|done|done].
           ++ left. by rewrite lookup_insert_ne in Hin.
        -- right. exists e. split_and!; [by apply list_elem_of_further|done|done].
      * intros [Hin|(e & He & Hst & Hk)].
        -- left. destruct (decide (ws_task step = key)) as [<-|Hne].
           ++ rewrite lookup_insert_eq. by eexists.
           ++ by rewrite lookup_insert_ne.
        -- apply elem_of_cons in He as [->|He].
           ++ left. cbn in Hk. subst key. rewrite lookup_insert_eq. by eexists.
           ++ right. by exists e.
    + rewrite (workflow_loop_failed _ _ _ _ _ _ _ _ Hs Hx).
      case_bool_decide; [done|]. intros Hloop.
      destruct (IH _ _ _ Hloop) as (later & -> & Hsub & Hkeys).
      exists (failed_entry step message :: later). rewrite <- app_assoc.
      split_and!; [done|by apply sublist_skip|].
      intros key. rewrite Hkeys. split.
      * intros [Hin|(e & He & Hst & Hk)]; [by left|].
        right. exists e. split_and!; [by apply list_elem_of_further|done|done].
      * intros [Hin|(e & He & Hst & Hk)]; [by left|].
        apply elem_of_cons in He as [->|He]; [discriminate Hst|].
        right. by exists e.
Qed.

(** C3, amended. A step reached with a dependency that is not a key of the
    accumulated results map is skipped: the loop goes on to the next step
    with the step log, the results map and the world unchanged (no executor
    call, no record), so the run is the run of the workflow without that
    step; the log lists attempted steps in the order of the step list. The
    skipped step adds no key: a key, its task string included, is in the
    final results map exactly when it already was there when the step was
    skipped, or one of the steps after it, with that task string, is
    attempted and completes. *)
Theorem skipped_step_is_inert workflow before step after w log res w1 dependencies dep :
  wf_steps workflow = before ++ step :: after →
  workflow_loop env (wf_name workflow) before [] ∅ w = (Resolved (log, res), w1) →
  ws_dependencies step = Some dependencies →
  dep ∈ dependencies →
  res !! dep = None →
  workflow_loop env (wf_name workflow) (step :: after) log res w1
  = workflow_loop env (wf_name workflow) after log res w1 ∧
  workflow_loop env (wf_name workflow) (wf_steps workflow) [] ∅ w
  = workflow_loop env (wf_name workflow) (before ++ after) [] ∅ w ∧
  ∀ report w',
    orchestrateWorkflow env workflow w = (Resolved report, w') →
    sublist (se_step <$> rep_steps report) (before ++ after) ∧
    ∃ later,
      rep_steps report = log ++ later ∧
      sublist (se_step <$> later) after ∧
      ∀ key,
        is_Some (rep_results report !! key) ↔
        is_Some (res !! key) ∨
        ∃ e, e ∈ later ∧ se_status e = completed ∧ ws_task (se_step e) = key.
Proof.
  intros Hsteps Hbefore Hdeps Hdep Hmissing.
  assert (skips step res = true) as Hs by (apply skips_true; eauto).
  assert (workflow_loop env (wf_name workflow) (wf_steps workflow) [] ∅ w
          = workflow_loop env (wf_name workflow) (before ++ after) [] ∅ w) as Hsame.
  { rewrite Hsteps, !workflow_loop_app, Hbefore. by apply workflow_loop_skip. }
  split_and!; [by apply workflow_loop_skip|done|].
  intros report w'. rewrite orchestrateWorkflow_loop, Hsame.
  destruct (workflow_loop _ _ (before ++ after) _ _ _)
    as [[[log' res']|message] w2] eqn:Hloop; [|done].
  intros [= <- <-]. cbn [rep_steps rep_results]. split.
  - destruct (workflow_loop_log _ _ _ _ _ _ _ _ Hloop) as (new & -> & Hsub).
    by rewrite app_nil_l.
  - rewrite workflow_loop_app, Hbefore in Hloop.
    by apply (workflow_loop_new_keys _ _ _ _ _ _ _ _ Hloop).
Qed.

(** [results_of_log], one entry at a time. *)
Lemma results_of_log_snoc (log : list (StepEntry Any)) e :
  results_of_log (log ++ [e])
  = match se_status e, se_result e with
    | completed, Some result => <[ws_task (se_step e) := result]> (results_of_log log)
    | _, _ => results_of_log log
    end.
Proof. unfold results_of_log. by rewrite foldl_app. Qed.

Lemma workflow_loop_results name steps log res w log' res' w' :
  workflow_loop env name steps log res w = (Resolved (log', res'), w') →
  res = results_of_log log →
  res' = results_of_log log'.
Proof.
  intros Hloop Hres.
  apply (workflow_loop_invariant (λ log res _, res = results_of_log log) name)
    with (steps := steps) (log := log) (res := res) (w := w) (w' := w'); [| |done|done].
  - intros step l r w0 result w1 -> _ _. by rewrite results_of_log_snoc.
  - intros step l r w0 message w1 -> _ _. by rewrite results_of_log_snoc.
Qed.

Lemma workflow_loop_statuses name steps log res w log' res' w' :
  workflow_loop env name steps log res w = (Resolved (log', res'), w') →
  Forall logged log →
  Forall logged log'.
Proof.
  intros Hloop Hlog.
  apply (workflow_loop_invariant (λ log _ _, Forall logged log) name)
    with (steps := steps) (log := log) (res := res) (w := w) (res' := res') (w' := w');
    [| |done|done].
  - intros step l r w0 result w1 H _ Hx. apply Forall_app. split; [done|].
    constructor; [|constructor]. left. split; [done|]. exists result.
    split; [done|]. by apply executeTask_returns_success in Hx.
  - intros step l r w0 message w1 H _ _. apply Forall_app. split; [done|].
    constructor; [|constructor]. right. split_and!; [done|done|by eexists].
Qed.

Lemma count_status_total (log : list (StepEntry Any)) :
  Forall logged log →
  (count_status completed log + count_status failed log = length log)%nat.
Proof.
  unfold count_status.
  induction 1 as [|e l [[He _]|[He _]] _ IH]; [done|..]; cbn [List.filter]; rewrite He.
  - rewrite bool_decide_true, bool_decide_false by done. cbn [length]. lia.
  - rewrite bool_decide_false, bool_decide_true by done. cbn [length]. lia.
Qed.

Lemma results_of_log_last (l1 : list (StepEntry Any)) s r l3 :
  (∀ e, e ∈ l3 → se_status e = completed → ws_task (se_step e) ≠ ws_task s) →
  results_of_log (l1 ++ completed_entry s r :: l3) !! ws_task s = Some r.
Proof.
  induction l3 as [|e l3 IH] using rev_ind; intros Hlater.
  - rewrite results_of_log_snoc. cbn. apply lookup_insert_eq.
  - rewrite app_comm_cons, app_assoc, results_of_log_snoc.
    assert (results_of_log (l1 ++ completed_entry s r :: l3) !! ws_task s = Some r) as Hl.
    { apply IH. intros e' Hin. apply Hlater, elem_of_app. by left. }
    destruct (se_status e) eqn:Hst; try done.
    destruct (se_result e); [|done].
    rewrite lookup_insert_ne; [done|].
    apply Hlater; [|done]. apply elem_of_app. right. by apply list_elem_of_singleton.
Qed.

Lemma skips_false step (res : gmap string (AgentOutput Any)) :
  skips step res = false ↔
  ∀ dependencies dep,
    ws_dependencies step = Some dependencies → dep ∈ dependencies →
    is_Some (res !! dep).
Proof.
  split.
  - intros Hs deps dep Hdeps Hin.
    destruct (res !! dep) as [r|] eqn:Hr; [by eexists|].
    assert (skips step res = true) as Ht by (apply skips_true; eauto).
    congruence.
  - intros Hall. destruct (skips step res) eqn:Hs; [|done].
    apply skips_true in Hs as (deps & dep & Hdeps & Hin & Hnone).
    destruct (Hall deps dep Hdeps Hin) as [r Hr]. congruence.
Qed.

(** The loop of the code runs the steps as the specification says. *)
Lemma workflow_loop_run name steps log res w log' res' w' :
  workflow_loop env name steps log res w = (Resolved (log', res'), w') →
  workflow_run env name steps log res w log' res' w'.
Proof.
  revert log res w. induction steps as [|step rest IH]; intros log res w.
  { intros [= <- <- <-]. constructor. }
  destruct (skips step res) eqn:Hs.
  - rewrite workflow_loop_skip by done. intros Hloop.
    apply skips_true in Hs as (deps & dep & Hdeps & Hin & Hnone).
    eapply run_skipped; eauto.
  - pose proof (proj1 (skips_false step res) Hs) as Hdeps.
    destruct (step_call env step res w) as [[result|message] w1] eqn:Hx.
    + rewrite (workflow_loop_completed _ _ _ _ _ _ _ _ Hs Hx). intros Hloop.
      exact (run_completed env name step rest log res w result w1 log' res' w'
               Hdeps Hx (IH _ _ _ Hloop)).
    + rewrite (workflow_loop_failed _ _ _ _ _ _ _ _ Hs Hx).
      case_bool_decide as Hname; [done|]. intros Hloop.
      assert (name = "non-critical") as Hnc.
      { destruct (decide (name = "non-critical")); [done|]. by destruct Hname. }
      exact (run_failed env name step rest log res w message w1 log' res' w'
               Hdeps Hx Hnc (IH _ _ _ Hloop)).
Qed.

Lemma count_status_filter (s : Status) (log : list (StepEntry Any)) :
  count_status s log = length (filter (λ e, se_status e = s) log).
Proof.
  unfold count_status. induction log as [|e log IH]; [done|].
  cbn [List.filter]. rewrite filter_cons.
  case_bool_decide; case_decide; try done; cbn [length]; by rewrite IH.
Qed.

(** C8. A report that [orchestrateWorkflow] returns carries the workflow
    name and counts every step of the definition in [totalSteps], skipped
    ones included. Its step log and its results map are those of the run
    the specification describes: in list order, a step with a missing
    dependency leaves nothing, an attempted step is logged with what its
    own [executeTask] returned or threw, called with the results
    accumulated so far in the world the earlier steps left, and a returned
    result is stored under [step.task]. [completedSteps] and [failedSteps]
    are the numbers of [completed] and of [failed] entries of the log, which
    has no other entries. The keys of the results map are the task strings
    of the completed entries, and under a key the map holds the result of
    the last completed entry with that task string. *)
Theorem orchestrateWorkflow_report workflow w report w' :
  orchestrateWorkflow env workflow w = (Resolved report, w') →
  rep_workflow report = wf_name workflow ∧
  rep_totalSteps report = length (wf_steps workflow) ∧
  workflow_run env (wf_name workflow) (wf_steps workflow) [] ∅ w
    (rep_steps report) (rep_results report) w' ∧
  rep_completedSteps report
  = length (filter (λ e, se_status e = completed) (rep_steps report)) ∧
  rep_failedSteps report
  = length (filter (λ e, se_status e = failed) (rep_steps report)) ∧
  (rep_completedSteps report + rep_failedSteps report = length (rep_steps report))%nat ∧
  (length (rep_steps report) ≤ rep_totalSteps report)%nat ∧
  (∀ key,
     is_Some (rep_results report !! key) ↔
     ∃ e, e ∈ rep_steps report ∧ se_status e = completed ∧ ws_task (se_step e) = key) ∧
  (∀ earlier step result later,
     rep_steps report = earlier ++ completed_entry step result :: later →
     (∀ e, e ∈ later → se_status e = completed → ws_task (se_step e) ≠ ws_task step) →
     rep_results report !! ws_task step = Some result).
Proof.
  rewrite orchestrateWorkflow_loop.
  destruct (workflow_loop _ _ _ _ _ _) as [[[log res]|message] w1] eqn:Hloop; [|done].
  intros [= <- <-]. cbn.
  destruct (workflow_loop_new_keys _ _ _ _ _ _ _ _ Hloop) as (new & Hnew & Hsub & Hkeys).
  rewrite app_nil_l in Hnew. subst new.
  pose proof (workflow_loop_statuses _ _ _ _ _ _ _ _ Hloop (Forall_nil_2 _)) as Hst.
  rewrite <- !count_status_filter.
  split_and!; try done.
  - by apply workflow_loop_run.
  - by apply count_status_total.
  - apply sublist_length in Hsub. by rewrite length_fmap in Hsub.
  - intros key. rewrite Hkeys, lookup_empty. split.
    + intros [[? ?]|?]; [done|done].
    + intros ?. by right.
  - intros earlier step result later -> Hlater.
    rewrite (workflow_loop_results _ _ _ _ _ _ _ _ Hloop eq_refl).
    by apply results_of_log_last.
Qed.

Lemma workflow_loop_keeps_keys name steps log res w log' res' w' key :
  workflow_loop env name steps log res w = (Resolved (log', res'), w') →
  is_Some (res !! key) →
  is_Some (res' !! key).
Proof.
  intros Hloop Hkey.
  apply (workflow_loop_invariant (λ _ res _, is_Some (res !! key)) name)
    with (steps := steps) (log := log) (res := res) (w := w) (log' := log') (w' := w');
    [| |done|done].
  - intros step l r w0 result w1 H _ _.
    destruct (decide (ws_task step = key)) as [->|Hne].
    + rewrite lookup_insert_eq. by eexists.
    + by rewrite lookup_insert_ne.
  - by intros step l r w0 message w1 H _ _.
Qed.

Lemma missingDeps_has step (res : gmap string (AgentOutput Any)) key :
  Map_has res key = true → key ∉ missingDeps step res.
Proof.
  intros Hhas Hin. unfold missingDeps in Hin.
  destruct (ws_dependencies step) as [deps|]; [|by apply not_elem_of_nil in Hin].
  apply list_elem_of_In, filter_In in Hin as [_ Hneg]. by rewrite Hhas in Hneg.
Qed.

(** C9. When two completed entries of the step log share their task string
    and no completed entry with that string follows the later one, the
    final results map holds the later result under the shared key. And once
    a step has completed, its key stays in the results map whatever steps
    run next, so no step reached afterwards (between the two or after them)
    finds that key among its missing dependencies. *)
Theorem duplicate_task_overwrites workflow w report w' l1 s1 r1 l2 s2 r2 l3 :
  orchestrateWorkflow env workflow w = (Resolved report, w') →
  rep_steps report = l1 ++ completed_entry s1 r1 :: l2 ++ completed_entry s2 r2 :: l3 →
  ws_task s1 = ws_task s2 →
  (∀ e, e ∈ l3 → se_status e = completed → ws_task (se_step e) ≠ ws_task s2) →
  rep_results report !! ws_task s1 = Some r2 ∧
  ∀ name step result later log res w1 log2 res2 w2,
    workflow_loop env name later (log ++ [completed_entry step result])
      (<[ws_task step := result]> res) w1 = (Resolved (log2, res2), w2) →
    Map_has res2 (ws_task step) = true ∧
    ∀ next, ws_task step ∉ missingDeps next res2.
Proof.
  intros Hrun Hlog Hsame Hlater. split.
  - rewrite orchestrateWorkflow_loop in Hrun.
    destruct (workflow_loop _ _ _ _ _ _) as [[[log res]|message] w1] eqn:Hloop;
      [|done].
    injection Hrun as <- <-. cbn [rep_results rep_steps] in *.
    rewrite (workflow_loop_results _ _ _ _ _ _ _ _ Hloop eq_refl).
    rewrite Hlog, Hsame.
    replace (l1 ++ completed_entry s1 r1 :: l2 ++ completed_entry s2 r2 :: l3)
      with ((l1 ++ completed_entry s1 r1 :: l2) ++ completed_entry s2 r2 :: l3)
      by (by rewrite <- app_assoc).
    by apply results_of_log_last.
  - intros name step result later log res w1 log2 res2 w2 Hloop.
    assert (Map_has res2 (ws_task step) = true) as Hhas.
    { assert (is_Some (res2 !! ws_task step)) as [x Hx].
      { apply (workflow_loop_keeps_keys _ _ _ _ _ _ _ _ _ Hloop).
        rewrite lookup_insert_eq. by eexists. }
      unfold Map_has. by rewrite Hx. }
    split; [done|]. intros next. by apply missingDeps_has.
Qed.

(** *** The registry map is read, never written, by the task methods *)

Lemma workflow_loop_agents name steps log res w :
  agents (workflow_loop env name steps log res w).2 = agents w.
Proof.
  revert log res w. induction steps as [|step rest IH]; intros log res w; [done|].
  destruct (skips step res) eqn:Hs.
  - rewrite workflow_loop_skip by done. apply IH.
  - pose proof (executeTask_agents (ws_agentType step) (ws_task step)
                  (Some (previousResults env res)) None None w) as Hframe.
    destruct (step_call env step res w) as [[result|message] w1] eqn:Hx; cbn in Hframe.
    + rewrite (workflow_loop_completed _ _ _ _ _ _ _ _ Hs Hx). by rewrite IH.
    + rewrite (workflow_loop_failed _ _ _ _ _ _ _ _ Hs Hx).
      case_bool_decide; [done|]. by rewrite IH.
Qed.

Lemma orchestrateWorkflow_agents workflow w :
  agents (orchestrateWorkflow env workflow w).2 = agents w.
Proof.
  rewrite orchestrateWorkflow_loop.
  pose proof (workflow_loop_agents (wf_name workflow) (wf_steps workflow) [] ∅ w) as H.
  by destruct (workflow_loop _ _ _ _ _ _) as [[[log res]|message] w1].
Qed.

Lemma executeAgentTask_agents agentType task context projectId taskId w :
  agents (executeAgentTask env agentType task context projectId taskId w).2 = agents w.
Proof.
  pose proof (executeTask_agents agentType task context projectId taskId w) as H.
  unfold executeAgentTask, try_catch, mbind, ST_bind, mret, ST_ret, now.
  by destruct (executeTask _ _ _ _ _ _ _) as [[r|e] w1].
Qed.

End Facts.


(** ** Copies and aliases *)

Section Copies.
Context {Any : Type} (env : Env Any).
Implicit Types (h : ObjectStore.Heap) (l target copy : ObjectStore.loc).

Lemma alloc_spec o h :
  h !! (ObjectStore.alloc o h).1 = None ∧
  (ObjectStore.alloc o h).2 !! (ObjectStore.alloc o h).1 = Some o ∧
  ∀ l, is_Some (h !! l) →
       l ≠ (ObjectStore.alloc o h).1 ∧ (ObjectStore.alloc o h).2 !! l = h !! l.
Proof.
  unfold ObjectStore.alloc. cbn [fst snd].
  assert (h !! fresh (dom h) = None) as Hfresh.
  { apply not_elem_of_dom, is_fresh. }
  split_and!; [done|apply lookup_insert_eq|].
  intros l [o' Hl].
  assert (l ≠ fresh (dom h)) as Hne by (intros ->; congruence).
  split; [done|]. by rewrite lookup_insert_ne.
Qed.

Lemma mutate_other target mu h l :
  l ≠ target → ObjectStore.mutate target mu h !! l = h !! l.
Proof.
  intros Hne. unfold ObjectStore.mutate.
  destruct mu, (h !! target) as [[]|]; try done; by rewrite lookup_insert_ne.
Qed.

Lemma mutate_all_other target mus h l :
  l ≠ target → ObjectStore.mutate_all target mus h !! l = h !! l.
Proof.
  intros Hne. unfold ObjectStore.mutate_all.
  revert h. induction mus as [|mu mus IH]; intros h; [done|].
  cbn [foldl]. rewrite IH. by apply mutate_other.
Qed.

Lemma getConfig_frame agent h l :
  is_Some (h !! l) →
  (ObjectStore.getConfig agent h).2 !! l = h !! l ∧
  is_Some ((ObjectStore.getConfig agent h).2 !! l).
Proof.
  intros Hl. unfold ObjectStore.getConfig.
  destruct (ObjectStore.read_config agent h) as [cfg|]; [|done].
  destruct (alloc_spec (ObjectStore.ConfigObj cfg) h) as (_ & _ & Hold).
  destruct (Hold l Hl) as [_ Heq].
  destruct (ObjectStore.alloc (ObjectStore.ConfigObj cfg) h) as [c h']. cbn in *.
  by rewrite Heq.
Qed.

Lemma getConfigs_frame registered h l :
  is_Some (h !! l) → (ObjectStore.getConfigs registered h).2 !! l = h !! l.
Proof.
  revert h. induction registered as [|agent rest IH]; intros h Hl; [done|].
  cbn [ObjectStore.getConfigs].
  destruct (getConfig_frame agent h l Hl) as [Heq Hsome].
  destruct (ObjectStore.getConfig agent h) as [[c|] h1]; cbn [snd] in *.
  - specialize (IH h1 Hsome). destruct (ObjectStore.getConfigs rest h1) as [cs h2].
    cbn [snd] in *. by rewrite IH.
  - by rewrite IH.
Qed.

Lemma read_config_frame agent h h' cfg :
  ObjectStore.read_config agent h = Some cfg →
  (∀ l, is_Some (h !! l) → h' !! l = h !! l) →
  ObjectStore.read_config agent h' = Some cfg.
Proof.
  unfold ObjectStore.read_config. intros Hcfg Hsame.
  destruct (h !! agent) as [[| |c]|] eqn:Ha; try done.
  rewrite (Hsame agent) by (rewrite Ha; by eexists). rewrite Ha.
  destruct (h !! c) as [[|cfg'|]|] eqn:Hc; try done.
  rewrite (Hsame c) by (rewrite Hc; by eexists). by rewrite Hc.
Qed.

(** C10. [getAllAgents] returns a new [Map] with the entries of the
    registry's: whatever the caller then does to the returned map leaves
    every object that existed before, the registry's map among them, as it
    was. [getConfig] returns a new object with the fields of the agent's
    configuration, and mutating it leaves the agent's configuration as it
    was. Of the registry's operations only [registerAgent] changes the
    map: the lookups, the copies and the task methods leave it unchanged. *)
Theorem copies_leave_registry_unchanged :
  (∀ agents h entries,
     h !! agents = Some (ObjectStore.MapObj entries) →
     ∃ copy h',
       ObjectStore.getAllAgents agents h = (copy, h') ∧
       copy ≠ agents ∧
       h' !! copy = Some (ObjectStore.MapObj entries) ∧
       ∀ mus,
         ObjectStore.entries_of agents (ObjectStore.mutate_all copy mus h') = entries ∧
         ∀ l, is_Some (h !! l) → ObjectStore.mutate_all copy mus h' !! l = h !! l) ∧
  (∀ agent h cfg,
     ObjectStore.read_config agent h = Some cfg →
     ∃ copy h',
       ObjectStore.getConfig agent h = (Some copy, h') ∧
       h' !! copy = Some (ObjectStore.ConfigObj cfg) ∧
       ∀ mus,
         ObjectStore.read_config agent (ObjectStore.mutate_all copy mus h') = Some cfg ∧
         ∀ l, is_Some (h !! l) → ObjectStore.mutate_all copy mus h' !! l = h !! l) ∧
  (∀ agents h entries,
     h !! agents = Some (ObjectStore.MapObj entries) →
     ObjectStore.entries_of agents (ObjectStore.getAllAgents agents h).2 = entries ∧
     ObjectStore.entries_of agents (ObjectStore.getAvailableAgents agents h).2 = entries ∧
     (∀ agent,
        ObjectStore.entries_of agents (ObjectStore.getConfig agent h).2 = entries) ∧
     (∀ type agent,
        ObjectStore.entries_of agents (ObjectStore.registerAgent agents type agent h)
        = if ObjectStore.isEnabled agent h then <[type := agent]> entries else entries)) ∧
  (∀ (w : World Any),
     (∀ agent input, agents (processTask env agent input w).2 = agents w) ∧
     (∀ agentType task context projectId taskId,
        agents (executeTask env agentType task context projectId taskId w).2 = agents w ∧
        agents (executeAgentTask env agentType task context projectId taskId w).2
        = agents w) ∧
     (∀ order requests, agents (executeTasks env order requests w).2 = agents w) ∧
     (∀ workflow, agents (orchestrateWorkflow env workflow w).2 = agents w) ∧
     (∀ type agent,
        agents (registerAgent type agent w).2
        = if isEnabled agent then <[type := agent]> (agents w) else agents w)).
Proof.
  split_and!.
  - intros agents h entries Hmap. unfold ObjectStore.getAllAgents.
    assert (ObjectStore.entries_of agents h = entries) as ->
      by (unfold ObjectStore.entries_of; by rewrite Hmap).
    destruct (alloc_spec (ObjectStore.MapObj entries) h) as (Hnew & Hcopy & Hold).
    destruct (ObjectStore.alloc (ObjectStore.MapObj entries) h) as [copy h'].
    cbn [fst snd] in *. exists copy, h'.
    assert (copy ≠ agents) as Hne by (intros ->; congruence).
    assert (∀ mus l, is_Some (h !! l) →
              ObjectStore.mutate_all copy mus h' !! l = h !! l) as Hframe.
    { intros mus l Hl. destruct (Hold l Hl) as [Hl' Heq].
      by rewrite mutate_all_other. }
    split_and!; [done|done|done|]. intros mus. split; [|by apply Hframe].
    unfold ObjectStore.entries_of.
    rewrite Hframe by (rewrite Hmap; by eexists). by rewrite Hmap.
  - intros agent h cfg Hcfg. unfold ObjectStore.getConfig. rewrite Hcfg.
    destruct (alloc_spec (ObjectStore.ConfigObj cfg) h) as (Hnew & Hcopy & Hold).
    destruct (ObjectStore.alloc (ObjectStore.ConfigObj cfg) h) as [copy h'].
    cbn [fst snd] in *. exists copy, h'.
    assert (∀ mus l, is_Some (h !! l) →
              ObjectStore.mutate_all copy mus h' !! l = h !! l) as Hframe.
    { intros mus l Hl. destruct (Hold l Hl) as [Hl' Heq].
      by rewrite mutate_all_other. }
    split_and!; [done|done|]. intros mus. split; [|by apply Hframe].
    apply (read_config_frame agent h); [done|by apply Hframe].
  - intros agents h entries Hmap.
    assert (is_Some (h !! agents)) as Hsome by (rewrite Hmap; by eexists).
    split_and!.
    + unfold ObjectStore.getAllAgents, ObjectStore.entries_of at 1.
      destruct (alloc_spec (ObjectStore.MapObj (ObjectStore.entries_of agents h)) h)
        as (_ & _ & Hold).
      destruct (Hold agents Hsome) as [_ ->]. by rewrite Hmap.
    + unfold ObjectStore.getAvailableAgents, ObjectStore.entries_of at 1.
      rewrite getConfigs_frame by done. by rewrite Hmap.
    + intros agent. unfold ObjectStore.entries_of.
      destruct (getConfig_frame agent h agents Hsome) as [-> _]. by rewrite Hmap.
    + intros type agent. unfold ObjectStore.registerAgent.
      destruct (ObjectStore.isEnabled agent h); cbn [negb].
      * unfold ObjectStore.entries_of at 1. rewrite lookup_insert_eq.
        unfold ObjectStore.entries_of. by rewrite Hmap.
      * unfold ObjectStore.entries_of. by rewrite Hmap.
  - intros w. split_and!.
    + intros. apply processTask_agents.
    + intros. split; [apply executeTask_agents|apply executeAgentTask_agents].
    + intros. apply executeTasks_agents.
    + intros. apply orchestrateWorkflow_agents.
    + intros type agent. unfold registerAgent. by destruct (isEnabled agent).
Qed.

End Copies.

(** ** The model at work *)

Import Scenario.

(** C1, as stated, fails: a registered agent whose executor returns
    [success: false] makes [executeTask] throw. *)
Lemma registered_failure_is_thrown :
  is_Some (getAgent "bad" w0) ∧
  (executeTask reliable "bad" "A" None None None w0).1 = Rejected "boom".
Proof. split; [by eexists|]. by vm_compute. Qed.

(** C3, as stated, fails: the first step of [shadowed] is skipped, yet its
    key "A" is later in the results map, where it satisfies the dependency
    of [step_B]. *)
Lemma skipped_key_is_later_available :
  skips (step "ok" "A" (Some ["Z"])) (∅ : gmap string (AgentOutput string)) = true ∧
  ∃ report w',
    orchestrateWorkflow reliable shadowed w0 = (Resolved report, w') ∧
    se_step <$> rep_steps report = [step_A; step_B] ∧
    is_Some (rep_results report !! "A").
Proof.
  split; [by vm_compute|].
  destruct (orchestrateWorkflow reliable shadowed w0) as [[report|message] w'] eqn:Hrun;
    vm_compute in Hrun; [|discriminate].
  injection Hrun as <- <-. eexists _, _. split; [reflexivity|].
  split; [by vm_compute|]. eexists. by vm_compute.
Qed.

(** C5, as stated, fails: registering a disabled executor under a type
    that is already registered leaves the earlier executor in place. *)
Lemma disabled_registration_keeps_earlier_agent :
  isEnabled disabled = false ∧
  registerAgent "ok" disabled w0 = (Resolved (), w0) ∧
  is_Some (getAgent "ok" (registerAgent "ok" disabled w0).2) ∧
  ∃ r, (executeTask reliable "ok" "A" None None None
          (registerAgent "ok" disabled w0).2).1 = Resolved r.
Proof.
  split_and!; [done|done|by eexists|]. eexists. by vm_compute.
Qed.

(** C6, as stated, fails: the record of a returned failure is [failed] and
    has an [output]; the record of a success that carries an [error] field
    is [completed] and has an [error]. *)
Lemma failed_record_has_output :
  (∃ r, EvSave r ∈ trace (processTask reliable failing (task "A") empty_world).2 ∧
        ae_status r = failed ∧ ae_output r = Some "boom" ∧
        ¬ output_error_by_status r) ∧
  (∃ r, EvSave r ∈ trace (processTask reliable warning (task "A") empty_world).2 ∧
        ae_status r = completed ∧ ae_error r = Some "deprecated" ∧
        ¬ output_error_by_status r).
Proof.
  split.
  - destruct (processTask reliable failing (task "A") empty_world) as [o w'] eqn:Hrun.
    vm_compute in Hrun. injection Hrun as <- <-. cbn [snd trace].
    eexists. split; [do 2 apply list_elem_of_further; apply list_elem_of_here|].
    split_and!; [done|done|]. intros [Hout _].
    specialize (Hout ltac:(by eexists)). discriminate.
  - destruct (processTask reliable warning (task "A") empty_world) as [o w'] eqn:Hrun.
    vm_compute in Hrun. injection Hrun as <- <-. cbn [snd trace].
    eexists. split; [do 2 apply list_elem_of_further; apply list_elem_of_here|].
    split_and!; [done|done|]. intros [_ Herr].
    specialize (Herr ltac:(by eexists)). discriminate.
Qed.

(** C7, as stated, fails: the store accepts the running record and then
    goes down; both terminal writes are rejected, the wrapper throws and
    the only record the store holds is [running]. *)
Lemma store_down_leaves_record_running :
  repo_save unreliable 3 = None ∧
  (processTask unreliable succeeding (task "A") empty_world).1 = Rejected "store down" ∧
  ae_status <$> writes (trace (processTask unreliable succeeding (task "A") empty_world).2)
  = [running] ∧
  ¬ record_lifecycle (trace (processTask unreliable succeeding (task "A") empty_world).2).
Proof.
  destruct (processTask unreliable succeeding (task "A") empty_world) as [o w'] eqn:Hrun.
  vm_compute in Hrun. injection Hrun as <- <-. cbn [fst snd trace].
  split_and!; [done|done|done|].
  intros (r1 & ty & input & rest & r2 & Hev & _ & Hw & _).
  injection Hev as _ _ _ <-. discriminate Hw.
Qed.

(** [critical_flow] stops at its failing first step, in the world that
    step left; [non_critical] logs the failure and runs the second step. *)
Lemma critical_flow_aborts :
  orchestrateWorkflow reliable critical_flow w0
  = (Rejected "boom",
     (executeTask reliable "bad" "A" (Some "previousResults") None None w0).2) ∧
  ∃ report w',
    orchestrateWorkflow reliable non_critical w0 = (Resolved report, w') ∧
    se_status <$> rep_steps report = [failed; completed].
Proof.
  destruct (executeTask reliable "bad" "A" (Some (previousResults reliable ∅)) None None w0)
    as [o w2] eqn:Hx.
  assert (o = Rejected "boom") as -> by (vm_compute in Hx; congruence).
  change (Some "previousResults") with (Some (previousResults reliable ∅)).
  rewrite Hx. cbn [snd]. split.
  - apply (workflow_failure_propagation reliable critical_flow
             [] (step "bad" "A" None) [step "ok" "B" None] w0 [] ∅ w0 "boom" w2
             eq_refl eq_refl eq_refl Hx).
    discriminate.
  - destruct (workflow_failure_propagation reliable non_critical
                [] (step "bad" "A" None) [step "ok" "B" None] w0 [] ∅ w0 "boom" w2
                eq_refl eq_refl eq_refl Hx) as [_ Hnc].
    destruct (Hnc eq_refl) as (_ & report & w' & later & Hrun & Hlog).
    exists report, w'. split; [done|].
    vm_compute in Hrun. injection Hrun as <- <-. reflexivity.
Defined.

(** The workflow of the specification's example: [A] and [B] run, [C] is
    skipped and leaves no key. *)
Lemma spec_workflow_skips_C :
  ∃ report w',
    orchestrateWorkflow reliable spec_workflow w0 = (Resolved report, w') ∧
    sublist (se_step <$> rep_steps report) [step_A; step_B] ∧
    rep_results report !! "C" = None.
Proof.
  destruct (workflow_loop reliable "flow" [step_A; step_B] [] ∅ w0)
    as [[[log res]|message] w1] eqn:Hbefore;
    [|vm_compute in Hbefore; discriminate].
  assert (res !! "Z" = None ∧ res !! "C" = None) as [HZ HC].
  { assert (match workflow_loop reliable "flow" [step_A; step_B] [] ∅ w0 with
            | (Resolved (_, r), _) => r !! "Z" = None ∧ r !! "C" = None
            | _ => False
            end) as Hkeys by (vm_compute; split; reflexivity).
    by rewrite Hbefore in Hkeys. }
  destruct (skipped_step_is_inert reliable spec_workflow [step_A; step_B] step_C []
              w0 log res w1 ["Z"] "Z" eq_refl Hbefore eq_refl
              ltac:(apply list_elem_of_here) HZ) as (_ & _ & Hreport).
  destruct (orchestrateWorkflow reliable spec_workflow w0)
    as [[report|message] w'] eqn:Hrun; [|vm_compute in Hrun; discriminate].
  destruct (Hreport report w' eq_refl) as (Hsub & later & _ & Hlater & Hkeys).
  exists report, w'. split_and!; [done|done|].
  destruct (rep_results report !! "C") as [r|] eqn:Hr; [|done].
  destruct (proj1 (Hkeys "C") (ex_intro _ r Hr)) as [[x Hx]|(e & Hin & _)].
  - discriminate (eq_trans (eq_sym Hx) HC).
  - apply sublist_nil_r, fmap_nil_inv in Hlater. subst later.
    destruct (not_elem_of_nil _ Hin).
Defined.

(** A disabled executor registered under a new type stays out of reach. *)
Lemma disabled_agent_not_found :
  registerAgent "new" disabled w0 = (Resolved (), w0) ∧
  getAgent "new" (registerAgent "new" disabled w0).2 = None ∧
  executeTask reliable "new" "A" None None None (registerAgent "new" disabled w0).2
  = (Rejected (not_available "new"), w0).
Proof.
  destruct (registerAgent_disabled reliable "new" disabled w0 eq_refl)
    as (Hreg & _ & Hnew).
  destruct (Hnew eq_refl) as [Hget Hrun].
  split_and!; [exact Hreg|exact Hget|apply Hrun].
Defined.

(** The terminal records of three invocations: a successful task; a
    returned failure, whose record is [failed] and has an [output]; and a
    returned failure whose record the store refuses once, so that the
    [catch] block writes it again, with the output it had and the store's
    message for [error]. *)
Lemma completed_record_fields :
  (∃ r, EvSave r ∈ events_since empty_world
                     (processTask reliable succeeding (task "A") empty_world).2 ∧
        ae_status r = completed ∧ ae_output r = Some "A" ∧ ae_error r = None) ∧
  (∃ r, EvSave r ∈ events_since empty_world
                     (processTask reliable failing (task "A") empty_world).2 ∧
        ae_status r = failed ∧ ae_output r = Some "boom" ∧ ae_error r = Some "boom") ∧
  (∃ r, EvSave r ∈ events_since empty_world
                     (processTask Cases.hiccup failing (task "A") empty_world).2 ∧
        ae_status r = failed ∧ ae_output r = Some "boom" ∧
        ae_error r = Some "store down").
Proof.
  split_and!.
  - pose proof (terminal_record_fields reliable succeeding (task "A") empty_world)
      as Hrec.
    destruct (processTask reliable succeeding (task "A") empty_world) as [o w'] eqn:Hrun.
    vm_compute in Hrun. injection Hrun as <- <-.
    unfold events_since, written in *. cbn [snd trace length drop empty_world] in *.
    match type of Hrec with
    | ∀ r, _ ∈ ?events ∨ _ → _ =>
        let r2 := match events with [_; _; EvSave ?r] => r end in
        assert (EvSave r2 ∈ events) as Hin
          by (do 2 apply list_elem_of_further; apply list_elem_of_here);
        destruct (Hrec r2 (or_introl Hin) (or_introl eq_refl))
          as [(result & Hx & Hst & Herr & Hout)|(message & Hst & _)];
          [|discriminate Hst];
        exists r2
    end.
    injection Hx as <-.
    split_and!; [exact Hin|exact Hst|reflexivity|exact Herr].
  - pose proof (terminal_record_fields reliable failing (task "A") empty_world)
      as Hrec.
    destruct (processTask reliable failing (task "A") empty_world) as [o w'] eqn:Hrun.
    vm_compute in Hrun. injection Hrun as <- <-.
    unfold events_since, written in *. cbn [snd trace length drop empty_world] in *.
    match type of Hrec with
    | ∀ r, _ ∈ ?events ∨ _ → _ =>
        let r2 := match events with [_; _; EvSave ?r] => r end in
        assert (EvSave r2 ∈ events) as Hin
          by (do 2 apply list_elem_of_further; apply list_elem_of_here);
        destruct (Hrec r2 (or_introl Hin) (or_intror eq_refl))
          as [(result & Hx & Hst & Herr & Hout)|(message & _ & Herr & _)];
          exists r2
    end.
    + injection Hx as <-.
      split_and!; [do 2 apply list_elem_of_further; apply list_elem_of_here
                  |exact Hst|exact Hout|exact Herr].
    + split_and!; [do 2 apply list_elem_of_further; apply list_elem_of_here
                  |reflexivity|reflexivity|reflexivity].
  - pose proof (terminal_record_fields Cases.hiccup failing (task "A") empty_world)
      as Hrec.
    destruct (processTask Cases.hiccup failing (task "A") empty_world)
      as [o w'] eqn:Hrun.
    vm_compute in Hrun. injection Hrun as <- <-.
    unfold events_since, written in *. cbn [snd trace length drop empty_world] in *.
    match type of Hrec with
    | ∀ r, _ ∈ ?events ∨ _ → _ =>
        let r3 := match events with [_; _; _; EvSave ?r] => r end in
        assert (EvSave r3 ∈ events) as Hin
          by (do 3 apply list_elem_of_further; apply list_elem_of_here);
        destruct (Hrec r3 (or_introl Hin) (or_intror eq_refl))
          as [(result & Hx & _ & Herr & _)|(message & Hst & Herr & _)];
          exists r3
    end.
    + injection Hx as <-. discriminate Herr.
    + injection Herr as <-.
      split_and!; [do 3 apply list_elem_of_further; apply list_elem_of_here
                  |exact Hst|reflexivity|reflexivity].
Defined.

(** A store that goes down once the invocation is over: none of the
    invocation's own writes is refused, and the record goes through its
    lifecycle. *)
Lemma reliable_store_lifecycle :
  repo_save Cases.down_later 8 = Some "store down" ∧
  record_lifecycle
    (events_since empty_world
       (processTask Cases.down_later succeeding (task "A") empty_world).2).
Proof.
  split; [reflexivity|].
  assert (∀ r message,
            EvSaveFailed r message
              ∉ events_since empty_world
                  (processTask Cases.down_later succeeding (task "A") empty_world).2)
    as Hok.
  { intros r message Hin.
    destruct (processTask Cases.down_later succeeding (task "A") empty_world)
      as [o w'] eqn:Hrun.
    vm_compute in Hrun. injection Hrun as <- <-.
    unfold events_since in Hin. cbn [snd trace length drop empty_world] in Hin.
    repeat (apply elem_of_cons in Hin as [Hin|Hin]; [discriminate Hin|]).
    destruct (not_elem_of_nil _ Hin). }
  destruct (record_lifecycle_when_store_accepts Cases.down_later succeeding (task "A")
              empty_world "A" eq_refl Hok)
    as (r1 & r2 & out & w' & Hrun & _ & _ & _ & _ & _ & _ & Hlife).
  rewrite Hrun. exact Hlife.
Defined.

(** The report of the specification's example: three steps, two of them
    attempted and completed. The report of [non_critical]: one step failed,
    one completed. *)
Lemma spec_workflow_report :
  (∃ report w',
     orchestrateWorkflow reliable spec_workflow w0 = (Resolved report, w') ∧
     rep_workflow report = "flow" ∧
     rep_totalSteps report = 3%nat ∧
     rep_completedSteps report = 2%nat ∧
     rep_failedSteps report = 0%nat ∧
     se_step <$> rep_steps report = [step_A; step_B] ∧
     workflow_run reliable "flow" [step_A; step_B; step_C] [] ∅ w0
       (rep_steps report) (rep_results report) w') ∧
  (∃ report w',
     orchestrateWorkflow reliable non_critical w0 = (Resolved report, w') ∧
     rep_totalSteps report = 2%nat ∧
     rep_completedSteps report = 1%nat ∧
     rep_failedSteps report = 1%nat ∧
     se_status <$> rep_steps report = [failed; completed]).
Proof.
  split.
  - destruct (orchestrateWorkflow reliable spec_workflow w0)
      as [[report|message] w'] eqn:Hrun; [|vm_compute in Hrun; discriminate].
    destruct (orchestrateWorkflow_report reliable spec_workflow w0 report w' Hrun)
      as (Hname & Htotal & Hsteps & Hcompleted & Hfailed & _).
    exists report, w'.
    split_and!; [reflexivity|exact Hname|exact Htotal| | | |exact Hsteps].
    all: try rewrite Hcompleted; try rewrite Hfailed.
    all: pose proof Hrun as Hc; vm_compute in Hc; injection Hc as Hrep _.
    all: rewrite <- Hrep; reflexivity.
  - destruct (orchestrateWorkflow reliable non_critical w0)
      as [[report|message] w'] eqn:Hrun; [|vm_compute in Hrun; discriminate].
    destruct (orchestrateWorkflow_report reliable non_critical w0 report w' Hrun)
      as (_ & Htotal & _ & Hcompleted & Hfailed & _).
    exists report, w'.
    split_and!; [reflexivity|exact Htotal| | |].
    all: try rewrite Hcompleted; try rewrite Hfailed.
    all: pose proof Hrun as Hc; vm_compute in Hc; injection Hc as Hrep _.
    all: rewrite <- Hrep; reflexivity.
Defined.

(** In [repeated] both steps with the task string "A" complete, with
    different records; the results map keeps the later result. *)
Lemma repeated_task_keeps_later_result :
  ∃ report w' r1 rB r2,
    orchestrateWorkflow reliable repeated w0 = (Resolved report, w') ∧
    rep_steps report
    = [completed_entry step_A r1; completed_entry step_B rB; completed_entry step_A r2] ∧
    out_agentExecutionId r1 ≠ out_agentExecutionId r2 ∧
    rep_results report !! "A" = Some r2.
Proof.
  destruct (orchestrateWorkflow reliable repeated w0)
    as [[report|message] w'] eqn:Hrun; [|vm_compute in Hrun; discriminate].
  assert (∃ r1 rB r2,
            rep_steps report
            = [completed_entry step_A r1; completed_entry step_B rB;
               completed_entry step_A r2] ∧
            out_agentExecutionId r1 ≠ out_agentExecutionId r2)
    as (r1 & rB & r2 & Hlog & Hne).
  { pose proof Hrun as Hc. vm_compute in Hc. injection Hc as Hrep _.
    rewrite <- Hrep. eexists _, _, _. split; [reflexivity|]. discriminate. }
  pose proof (duplicate_task_overwrites reliable repeated w0 report w'
                [] step_A r1 [completed_entry step_B rB] step_A r2 [] Hrun Hlog eq_refl)
    as Hlast.
  assert (∀ e : StepEntry string, e ∈ [] → se_status e = completed →
            ws_task (se_step e) ≠ ws_task step_A) as Hnone.
  { intros e He. destruct (not_elem_of_nil _ He). }
  destruct (Hlast Hnone) as [Hres _].
  exists report, w', r1, rB, r2.
  split_and!; [reflexivity|exact Hlog|exact Hne|exact Hres].
Defined.

(** A thrown executor exception reaches the caller of [executeTask] as an
    exception, and the caller of [executeAgentTask] as a response. *)
Lemma crash_is_rethrown :
  (executeTask reliable "crash" "A" None None None w0).1 = Rejected "crash" ∧
  ∃ response w',
    executeAgentTask reliable "crash" "A" None None None w0 = (Resolved response, w') ∧
    sr_success response = false ∧ sr_error response = Some "crash".
Proof.
  destruct (executeTask_failure_policy reliable "crash" "A" None None None w0)
    as (_ & Hregistered & response & w' & Hservice & Hresponse).
  destruct (Hregistered crashing eq_refl) as (_ & _ & _ & _ & Hthrow).
  destruct (Hthrow "crash" "A" eq_refl eq_refl (λ n _, eq_refl))
    as (r & w1 & _ & _ & _ & Hrun).
  rewrite Hrun in Hresponse |- *. cbn [fst] in *.
  split; [reflexivity|]. exists response, w'. by split.
Defined.


(** The caller of [getAllAgents] empties the returned map and adds an entry
    to it; the caller of [getConfig] disables the returned configuration.
    The registry's map and the agent's configuration stay as they were. *)
Lemma caller_mutations_stay_local :
  ∃ map_copy h1 config_copy h2,
    ObjectStore.getAllAgents 1 heap0 = (map_copy, h1) ∧
    ObjectStore.getConfig 2 heap0 = (Some config_copy, h2) ∧
    ObjectStore.entries_of map_copy
      (ObjectStore.mutate_all map_copy
         [ObjectStore.MapClear; ObjectStore.MapSet "other" 2] h1)
    = <["other" := 2%positive]> ∅ ∧
    ObjectStore.entries_of 1
      (ObjectStore.mutate_all map_copy
         [ObjectStore.MapClear; ObjectStore.MapSet "other" 2] h1)
    = <["ok" := 2%positive]> ∅ ∧
    ObjectStore.mutate_all config_copy [ObjectStore.Assign disable] h2 !! config_copy
    = Some (ObjectStore.ConfigObj (cfg "ok" false)) ∧
    ObjectStore.read_config 2
      (ObjectStore.mutate_all config_copy [ObjectStore.Assign disable] h2)
    = Some (cfg "ok" true).
Proof.
  destruct (copies_leave_registry_unchanged reliable) as (Hmap & Hconfig & _).
  destruct (Hmap 1%positive heap0 (<["ok" := 2%positive]> ∅) eq_refl)
    as (map_copy & h1 & Hcopy1 & _ & _ & Hkeep1).
  destruct (Hconfig 2%positive heap0 (cfg "ok" true) eq_refl)
    as (config_copy & h2 & Hcopy2 & _ & Hkeep2).
  exists map_copy, h1, config_copy, h2.
  split_and!; [exact Hcopy1|exact Hcopy2| |apply Hkeep1| |apply Hkeep2].
  - vm_compute in Hcopy1. injection Hcopy1 as <- <-. by vm_compute.
  - vm_compute in Hcopy2. injection Hcopy2 as <- <-. by vm_compute.
Defined.

(** * Further properties of the code *)

Section Wrapper.
Context {Any : Type} (env : Env Any).
Implicit Types (w : World Any) (agent : BaseAgent Any) (input : AgentInput Any).

Ltac exec_unfold :=
  cbv [processTask processTask_try processTask_catch with_local try_catch
    update_local set_local get_local lift throwing throw save run_execute
    now fresh_uuid random get_state mbind mret ST_bind ST_ret fmap ST_fmap
    advance emit tick trace agents the_local default option_fmap option_map id
    fst snd Nat.add].

Ltac exec_step :=
  match goal with
  | |- context [JSON_stringify_input env ?i] =>
      destruct (JSON_stringify_input env i) eqn:?
  | |- context [execute ?a ?n ?i] => destruct (execute a n i) eqn:?
  | |- context [match out_success ?r with _ => _ end] => destruct (out_success r) eqn:?
  | |- context [match out_result ?r with _ => _ end] => destruct (out_result r) eqn:?
  | |- context [JSON_stringify env ?v] => destruct (JSON_stringify env v) eqn:?
  | |- context [repo_save env ?n] => destruct (repo_save env n) eqn:?
  end; cbv beta iota.

Ltac exec_all := exec_unfold; repeat exec_step.

(** The events of a run, once it is executed. *)
Ltac new_events :=
  unfold events_since; cbn [trace];
  rewrite <- ?app_assoc, ?drop_app_length, ?drop_all; cbn [app].

Ltac not_in_events :=
  let H := fresh in
  intros ? ? H; set_unfold in H; destruct_or?; simplify_eq.

(** X1. Whatever the store and the executor do, one invocation of the
    wrapper calls the executor at most once, and only right after the store
    accepted the [running] record (which has no output and no error yet). *)
Theorem executor_called_after_running_record agent input w :
  (∀ agentType i,
     EvExecute agentType i ∉ events_since w (processTask env agent input w).2) ∨
  (∃ r1 rest,
     events_since w (processTask env agent input w).2
     = EvSave r1 :: EvExecute (cfg_type (config agent)) input :: rest ∧
     ae_status r1 = running ∧ ae_output r1 = None ∧ ae_error r1 = None ∧
     ∀ agentType i, EvExecute agentType i ∉ rest).
Proof.
  destruct w as [ag t tr]. exec_all; new_events.
  all: first
    [ left; not_in_events; fail
    | right; eexists _, _; split; [reflexivity|];
      split_and!; [reflexivity|reflexivity|reflexivity|not_in_events] ].
Qed.

(** X2. Every record one invocation hands to the store, accepted or not,
    is the same row: the id drawn at the start, the type and the name of
    the agent's own configuration, the serialized input, the task and
    project ids of the input and the start time never change between the
    [running] write and the terminal ones. *)
Theorem records_keep_identity agent input w r :
  written r (events_since w (processTask env agent input w).2) →
  ae_id r = uuidv4 env (1 + tick w) ∧
  ae_agentType r = cfg_type (config agent) ∧
  ae_agentName r = cfg_name (config agent) ∧
  JSON_stringify_input env input = Resolved (ae_input r) ∧
  ae_taskId r = in_taskId input ∧
  ae_projectId r = in_projectId input ∧
  ae_startedAt r = Date_now env (2 + tick w).
Proof.
  unfold written. destruct w as [ag t tr]. exec_all; new_events.
  all: intros [Hin|[msg Hin]]; set_unfold in Hin; destruct_or?; simplify_eq/=.
  all: by split_and!.
Qed.

(** X3. The wrapper throws in one case only: the store rejected the write
    of the [failed] record in the [catch] block, and the exception is the
    store's. *)
Theorem processTask_throws_only_on_rejected_write agent input w message w' :
  processTask env agent input w = (Rejected message, w') →
  ∃ earlier r,
    events_since w w' = earlier ++ [EvSaveFailed r message] ∧
    ae_status r = failed ∧ is_Some (ae_error r).
Proof.
  destruct w as [ag t tr]. exec_all; intros [= <- <-]; new_events.
  all: match goal with
       | |- ∃ earlier r, ?evs = _ ∧ _ =>
           exists (removelast evs); cbn [removelast]; eexists
       end.
  all: split; [reflexivity|]; split; [reflexivity|by eexists].
Qed.

(** X4. When the input does not serialize, the wrapper creates no record
    and never calls the executor: the trace is unchanged, and the result is
    a failure carrying the serializer's message and no execution id. *)
Theorem unserializable_input_leaves_no_record agent input w message :
  JSON_stringify_input env input = Rejected message →
  ∃ out w',
    processTask env agent input w = (Resolved out, w') ∧
    trace w' = trace w ∧
    out_success out = false ∧
    out_error out = Some message ∧
    out_agentExecutionId out = None.
Proof.
  intros Hs. destruct w as [ag t tr]. exec_unfold. rewrite Hs. cbv beta iota.
  by eexists _, _.
Qed.

Lemma stored_snoc_save (events : list (Event Any)) r id :
  ae_id r = id → stored (events ++ [EvSave r]) id = Some r.
Proof.
  intros Hid. unfold stored, writes. rewrite omap_app. cbn [omap list_omap].
  rewrite filter_app, filter_cons_True by done. rewrite filter_nil.
  apply last_snoc.
Qed.

(** X5. Whenever the wrapper resolves with an execution id, the store holds
    that record in the terminal status that matches the result: [completed]
    when [success] is true, [failed] when it is false, with the duration
    the result reports. *)
Theorem resolved_result_matches_stored_record agent input w out w' id :
  processTask env agent input w = (Resolved out, w') →
  out_agentExecutionId out = Some id →
  ∃ r,
    stored (events_since w w') id = Some r ∧
    ae_id r = id ∧
    ae_status r = (if out_success out then completed else failed) ∧
    ae_duration r = Some (out_duration out) ∧
    is_Some (ae_completedAt r).
Proof.
  destruct w as [ag t tr]. revert out. exec_all; intros out [= <- <-]; new_events.
  all: cbn [out_agentExecutionId with_execution option_fmap option_map fmap];
       intros [= <-].
  all: match goal with
       | |- ∃ r, stored ?evs ?i = Some r ∧ _ =>
           match evs with
           | context [EvSave ?r :: nil] =>
               exists r; split;
               [apply (stored_snoc_save (removelast evs) r i); reflexivity|]
           end
       end.
  all: cbn.
  all: repeat match goal with H : out_success _ = _ |- _ => rewrite H end.
  all: split_and!; try reflexivity; by eexists.
Qed.

Lemma processTask_scope agent input w :
  ∃ events,
    trace (processTask env agent input w).2 = trace w ++ events ∧
    ∀ r, written r events →
         ae_taskId r = in_taskId input ∧ ae_projectId r = in_projectId input.
Proof.
  unfold written. destruct w as [ag t tr]. exec_all; cbn [trace]; rewrite <- ?app_assoc.
  all: eexists; split; [try reflexivity; symmetry; apply app_nil_r|].
  all: intros r [Hin|[msg Hin]]; set_unfold in Hin; destruct_or?; simplify_eq/=; done.
Qed.

End Wrapper.

Section Registry.
Context {Any : Type} (env : Env Any).
Implicit Types (w : World Any) (agent : BaseAgent Any).

(** X6. [onModuleInit] always resolves and touches nothing but the registry
    map: afterwards each of the five type names holds the injected agent
    when that agent is enabled and what it held before when it is disabled;
    every other type is as before. *)
Theorem onModuleInit_registers_enabled (this : Injected Any) w :
  ∃ w',
    onModuleInit this w = (Resolved (), w') ∧
    tick w' = tick w ∧ trace w' = trace w ∧
    ∀ type,
      getAgent type w'
      = match injected this type with
        | Some agent => if isEnabled agent then Some agent else getAgent type w
        | None => getAgent type w
        end.
Proof.
  unfold onModuleInit, mbind, ST_bind, registerAgent.
  destruct (isEnabled (managerAgent this)) eqn:H1,
           (isEnabled (planningAgent this)) eqn:H2,
           (isEnabled (codeGenerationAgent this)) eqn:H3,
           (isEnabled (reviewAgent this)) eqn:H4,
           (isEnabled (testingAgent this)) eqn:H5; cbn [negb].
  all: eexists; split; [reflexivity|]; split; [reflexivity|]; split; [reflexivity|].
  all: intros type; unfold injected, getAgent, set_agents; cbn [agents].
  all: repeat case_decide; subst;
       rewrite ?H1, ?H2, ?H3, ?H4, ?H5;
       repeat (first [rewrite lookup_insert_eq | rewrite lookup_insert_ne by done]);
       reflexivity.
Qed.

Lemma registerAgent_only_enabled type agent w :
  only_enabled w → only_enabled (registerAgent type agent w).2.
Proof.
  intros Hw. unfold registerAgent.
  destruct (isEnabled agent) eqn:Hen; cbn [negb snd]; [|done].
  intros type' agent'. unfold getAgent, set_agents. cbn [agents].
  destruct (decide (type = type')) as [->|Hne].
  - rewrite lookup_insert_eq. by intros [= <-].
  - rewrite lookup_insert_ne by done. apply Hw.
Qed.

(** The own properties of the object [getAgentStatus] returns: one per
    registered type other than "__proto__". *)
Lemma getAgentStatus_lookup w type :
  getAgentStatus w !! type
  = if decide (type = "__proto__") then None
    else (λ agent, {| st_name := cfg_name (getConfig agent);
                      st_enabled := isEnabled agent;
                      st_role := cfg_role (getConfig agent);
                      st_description := cfg_description (getConfig agent);
                      st_healthy := true |}) <$> agents w !! type.
Proof.
  unfold getAgentStatus.
  match goal with
  | |- map_fold ?f ∅ _ !! _ = if _ then _ else ?g <$> _ =>
      apply (map_fold_weak_ind
               (λ status m, status !! type
                            = if decide (type = "__proto__") then None
                              else g <$> m !! type) f)
  end.
  - rewrite !lookup_empty. by case_decide.
  - intros i agent m status Hi IH. unfold assign_property.
    destruct (decide (i = "__proto__")) as [->|Hproto].
    + rewrite IH. case_decide; [done|]. by rewrite lookup_insert_ne.
    + destruct (decide (i = type)) as [->|Hne].
      * rewrite !lookup_insert_eq. by rewrite decide_False.
      * by rewrite !lookup_insert_ne.
Qed.

(** X7. A registry in which every agent is enabled stays so under
    [registerAgent] and [onModuleInit] (a disabled agent never gets in);
    in such a registry every entry of [getAgentStatus] reports
    [enabled: true] and [healthy: true], and [getAvailableAgents] lists
    enabled configurations only. *)
Theorem registry_holds_only_enabled type agent (this : Injected Any) w :
  only_enabled w →
  only_enabled (registerAgent type agent w).2 ∧
  only_enabled (onModuleInit this w).2 ∧
  (∀ type' status,
     getAgentStatus w !! type' = Some status →
     st_enabled status = true ∧ st_healthy status = true) ∧
  Forall (λ c, cfg_enabled c = true) (getAvailableAgents w).
Proof.
  intros Hw. split_and!.
  - by apply registerAgent_only_enabled.
  - unfold onModuleInit, mbind, ST_bind.
    repeat match goal with
    | |- context [registerAgent ?t ?a ?w0] =>
        let Hr := fresh "Hr" in
        let Hi := fresh "Hi" in
        assert (only_enabled (registerAgent t a w0).2) as Hi
          by (apply registerAgent_only_enabled; assumption);
        assert ((registerAgent t a w0).1 = Resolved ()) as Hr
          by (unfold registerAgent; by destruct (negb _));
        destruct (registerAgent t a w0) as [? ?]; cbn [fst snd] in Hr, Hi; subst
    end.
    assumption.
  - intros type' status. rewrite getAgentStatus_lookup.
    case_decide; [done|].
    destruct (agents w !! type') as [a|] eqn:Ha; [|done].
    intros [= <-]. cbn. split; [|done]. by apply (Hw type').
  - unfold getAvailableAgents. apply Forall_fmap, Forall_forall.
    intros [type' a] Hin. apply elem_of_map_to_list in Hin. cbn.
    by apply (Hw type').
Qed.

(** X8. The two listings against the lookup. The object [getAgentStatus]
    returns has a property of its own for a type exactly when [getAgent]
    finds an agent under it and the type is not "__proto__", with that
    agent's name, role, description and enabled flag; an agent registered
    under "__proto__" leaves no property. [getAvailableAgents] lists
    exactly the configurations of the registered agents, one per registered
    type, "__proto__" included. *)
Theorem listings_agree_with_registry w :
  (∀ type,
     type ≠ "__proto__" →
     match getAgent type w with
     | Some agent =>
         ∃ status,
           getAgentStatus w !! type = Some status ∧
           st_name status = cfg_name (getConfig agent) ∧
           st_role status = cfg_role (getConfig agent) ∧
           st_description status = cfg_description (getConfig agent) ∧
           st_enabled status = isEnabled agent
     | None => getAgentStatus w !! type = None
     end) ∧
  getAgentStatus w !! "__proto__" = None ∧
  (size (getAgentStatus w)
   = size (agents w) - match getAgent "__proto__" w with
                       | Some _ => 1
                       | None => 0
                       end)%nat ∧
  length (getAvailableAgents w) = size (agents w) ∧
  ∀ c, c ∈ getAvailableAgents w ↔
       ∃ type agent, getAgent type w = Some agent ∧ c = getConfig agent.
Proof.
  assert (getAgentStatus w
          = (λ agent, {| st_name := cfg_name (getConfig agent);
                         st_enabled := isEnabled agent;
                         st_role := cfg_role (getConfig agent);
                         st_description := cfg_description (getConfig agent);
                         st_healthy := true |}) <$> delete "__proto__" (agents w))
    as Hstatus.
  { apply map_eq. intros type. rewrite getAgentStatus_lookup, lookup_fmap.
    case_decide as Hproto.
    - subst type. by rewrite lookup_delete_eq.
    - by rewrite lookup_delete_ne. }
  split_and!.
  - intros type Hproto. unfold getAgent. rewrite getAgentStatus_lookup.
    rewrite decide_False by done.
    destruct (agents w !! type) as [a|]; [|done]. by eexists.
  - rewrite getAgentStatus_lookup. by rewrite decide_True.
  - rewrite Hstatus, map_size_fmap, map_size_delete. unfold getAgent.
    destruct (agents w !! "__proto__") as [a|]; cbn; lia.
  - unfold getAvailableAgents. by rewrite length_fmap, length_map_to_list.
  - intros c. unfold getAvailableAgents, getAgent. rewrite list_elem_of_fmap. split.
    + intros ([type a] & -> & Hin). apply elem_of_map_to_list in Hin. by exists type, a.
    + intros (type & a & Hget & ->). exists (type, a). split; [done|].
      by apply elem_of_map_to_list.
Qed.

(** X9. In the array [executeTasks] resolves with, whatever the order of
    resumption, an entry that is a task result always has [success: true]
    and a stub always [success: false]: the flag of an entry tells whether
    it is the result or the stub of its request, and the two counts the
    method logs add up to the number of requests. *)
Theorem batch_success_flags order requests w results w' :
  executeTasks env order requests w = (Resolved results, w') →
  Forall (λ entry, match entry with
                   | inl r => out_success r = true
                   | inr stub => stub_success stub = false
                   end) results ∧
  (∀ i request,
     requests !! i = Some request →
     ∃ entry,
       results !! i = Some entry ∧
       (entry_success entry = true ↔ ∃ r, entry = inl r) ∧
       (entry_success entry = false ↔
        ∃ message, entry = inr {| stub_success := false; stub_error := message;
                                  stub_agentType := req_agentType request |})) ∧
  (length (List.filter entry_success results)
   + length (List.filter (λ r, negb (entry_success r)) results)
   = length requests)%nat.
Proof.
  destruct (executeTasks_promises env order requests w) as (results0 & w0 & -> & _ & Hall).
  intros [= <- <-].
  assert (length results0 = length requests) as Hlen.
  { apply Forall2_length in Hall. by rewrite length_fmap in Hall. }
  assert (∀ i request entry,
            requests !! i = Some request → results0 !! i = Some entry →
            in_place request (inr entry)) as Hplace.
  { intros i request entry Hi He.
    destruct (Forall2_lookup_l _ _ _ _ _ Hall Hi) as (p & Hp & _ & Hin & _).
    rewrite list_lookup_fmap, He in Hp. by injection Hp as <-. }
  split_and!.
  - apply Forall_lookup. intros i entry He.
    destruct (lookup_lt_is_Some_2 requests i) as [request Hi].
    { apply lookup_lt_Some in He. lia. }
    specialize (Hplace i request entry Hi He).
    destruct entry as [r|stub]; cbn in Hplace; [done|by destruct Hplace].
  - intros i request Hi.
    destruct (lookup_lt_is_Some_2 results0 i) as [entry He].
    { apply lookup_lt_Some in Hi. lia. }
    specialize (Hplace i request entry Hi He). exists entry. split; [done|].
    destruct entry as [r|[success message type]]; cbn in Hplace |- *.
    + rewrite Hplace. split; split; try done.
      * by eexists.
      * by intros [? ?].
    + destruct Hplace as [-> ->]. split; split; try done.
      * by intros [? ?].
      * by eexists.
  - rewrite <- Hlen. clear.
    induction results0 as [|e l IH]; [done|].
    cbn. destruct (entry_success e); cbn; lia.
Qed.

End Registry.

Section Service.
Context {Any : Type} (env : Env Any).
Implicit Types (w : World Any).

Lemma envelopes_spec requests index results w :
  ∃ list w',
    AgentsService.envelopes env requests index results w = (Resolved list, w') ∧
    agents w' = agents w ∧ trace w' = trace w ∧
    length list = length requests ∧
    ∀ i request,
      requests !! i = Some request →
      ∃ e, list !! i = Some e ∧
           AgentsService.te_request e = request ∧
           AgentsService.te_result e = results !! (index + i)%nat.
Proof.
  revert index w. induction requests as [|request rest IH]; intros index w.
  { eexists _, _. split; [reflexivity|]. by split_and!. }
  cbn [AgentsService.envelopes]. unfold mbind, ST_bind, now. cbv beta iota.
  destruct (IH (S index) (advance w)) as (list & w' & -> & Hag & Htr & Hlen & Hentries).
  eexists _, _. split; [reflexivity|].
  split_and!; [done|done|by cbn; rewrite Hlen|].
  intros [|i] request'; cbn.
  - intros [= <-]. eexists. split; [reflexivity|]. cbn. by rewrite Nat.add_0_r.
  - intros Hi. destruct (Hentries i request' Hi) as (e & He & Hreq & Hres).
    exists e. split_and!; [done|done|]. rewrite Hres. f_equal. lia.
Qed.

(** X10. Whatever the order of resumption, [executeMultipleTasks] resolves
    with one envelope per request, in order: the envelope at a position
    pairs the request at that position with the entry of the [executeTasks]
    array at that position ([results[index]] is never [undefined]), which is
    the result or the failure stub of that request. *)
Theorem executeMultipleTasks_aligned order requests w :
  ∃ list w' results w1,
    executeTasks env order requests w = (Resolved results, w1) ∧
    AgentsService.executeMultipleTasks env order requests w = (Resolved list, w') ∧
    agents w' = agents w ∧
    length list = length requests ∧
    ∀ i request,
      requests !! i = Some request →
      ∃ e entry,
        list !! i = Some e ∧
        results !! i = Some entry ∧
        AgentsService.te_request e = request ∧
        AgentsService.te_result e = Some entry ∧
        match entry with
        | inl result => out_success result = true
        | inr stub =>
            stub_success stub = false ∧ stub_agentType stub = req_agentType request
        end.
Proof.
  unfold AgentsService.executeMultipleTasks, mbind, ST_bind.
  destruct (executeTasks_promises env order requests w)
    as (results & w1 & Hrun & Hag1 & Hall).
  rewrite Hrun.
  destruct (envelopes_spec requests 0 results w1)
    as (list & w' & -> & Hag & _ & Hlen & Hentries).
  exists list, w', results, w1. split_and!; [done|done|congruence|done|].
  intros i request Hi. destruct (Hentries i request Hi) as (e & He & Hreq & Hres).
  destruct (Forall2_lookup_l _ _ _ _ _ Hall Hi) as (p & Hp & _ & Hplace & _).
  rewrite list_lookup_fmap in Hp.
  destruct (results !! i) as [entry|] eqn:Hentry; [|discriminate Hp].
  injection Hp as <-. exists e, entry.
  split_and!; [done|done|done|by rewrite Hres|by destruct entry].
Qed.

Lemma executeWorkflow_resolves workflow w :
  ∃ response w', AgentsService.executeWorkflow env workflow w = (Resolved response, w').
Proof.
  unfold AgentsService.executeWorkflow, try_catch, mbind, ST_bind, mret, ST_ret, now.
  destruct (orchestrateWorkflow env workflow w) as [[report|message] w1];
    by eexists _, _.
Qed.

(** X11. [executeWorkflow] never throws: it answers [success: true] with
    the report when [orchestrateWorkflow] returns one, and [success: false]
    with the message when it aborts. A workflow named "non-critical" always
    gets [success: true], whatever its steps do. *)
Theorem executeWorkflow_never_throws workflow w :
  ∃ response w',
    AgentsService.executeWorkflow env workflow w = (Resolved response, w') ∧
    AgentsService.wr_workflow response = wf_name workflow ∧
    match (orchestrateWorkflow env workflow w).1 with
    | Resolved report =>
        AgentsService.wr_success response = true ∧
        AgentsService.wr_result response = Some report ∧
        AgentsService.wr_error response = None
    | Rejected message =>
        AgentsService.wr_success response = false ∧
        AgentsService.wr_result response = None ∧
        AgentsService.wr_error response = Some message
    end ∧
    (wf_name workflow = "non-critical" → AgentsService.wr_success response = true).
Proof.
  unfold AgentsService.executeWorkflow, try_catch, mbind, ST_bind, mret, ST_ret, now.
  destruct (orchestrateWorkflow env workflow w) as [[report|message] w1] eqn:Hrun;
    cbn [fst]; eexists _, _; (split; [reflexivity|]); split_and!; try done.
  intros Hname. exfalso.
  rewrite orchestrateWorkflow_loop, Hname in Hrun.
  destruct (workflow_loop_non_critical env (wf_steps workflow) [] ∅ w)
    as (log & res & w2 & Hloop).
  by rewrite Hloop in Hrun.
Qed.

(** X12. [updateAgentConfig] updates nothing: for a registered type it
    returns the current configuration overlaid with the fields of the
    request, and leaves the registry and the trace as they were, so that
    [getAgent] still answers with the old configuration; for an
    unregistered type it throws. *)
Theorem updateAgentConfig_is_not_persisted agentType config w :
  match getAgent agentType w with
  | Some agent =>
      ∃ response w',
        AgentsService.updateAgentConfig env agentType config w = (Resolved response, w') ∧
        AgentsService.ur_updatedConfig response
        = AgentsService.spread (getConfig agent) config ∧
        agents w' = agents w ∧ trace w' = trace w ∧
        (AgentsService.getAgent agentType w').1 = Resolved (Some (getConfig agent))
  | None =>
      AgentsService.updateAgentConfig env agentType config w
      = (Rejected (AgentsService.agent_not_found agentType), w)
  end.
Proof.
  unfold AgentsService.updateAgentConfig, AgentsService.getAgent, mbind, ST_bind,
    mret, ST_ret, get_state, now, throw.
  destruct (getAgent agentType w) as [agent|] eqn:Hget; cbn [fmap option_fmap option_map].
  - eexists _, _. split; [reflexivity|]. split_and!; try done.
    cbn [fst]. unfold getAgent in *. cbn [agents advance]. by rewrite Hget.
  - reflexivity.
Qed.

(** X13. The entry points of a single task and of a workflow never fail
    with a server error: the controller's [executeTask] and
    [executeWorkflow] always respond with the service's answer, and the
    WebSocket service's [executeAgentTask] always resolves; a failed task
    comes back as a response with [success: false]. The controller's
    [getAgent] answers 404 exactly for an unregistered type and never 500. *)
Theorem entry_points_never_raise (dto : TaskRequest Any) workflow type w :
  (∃ response w',
     AgentsController.executeTask env dto w = (Responded response, w') ∧
     WebSocketService.executeAgentTask env dto w = (Resolved response, w') ∧
     (sr_success response = true ↔ ∃ r, (run_request env dto w).1 = Resolved r)) ∧
  (∃ response w',
     AgentsController.executeWorkflow env workflow w = (Responded response, w')) ∧
  AgentsController.getAgent type w
  = match getAgent type w with
    | Some agent =>
        (Responded {| AgentsController.body_success := true;
                      AgentsController.body_data := getConfig agent |}, w)
    | None => (HttpException ("Agent '" +:+ type +:+ "' not found") NOT_FOUND, w)
    end.
Proof.
  split_and!.
  - unfold AgentsController.executeTask, WebSocketService.executeAgentTask,
      executeAgentTask, run_request, try_catch, mbind, ST_bind, mret, ST_ret, now.
    destruct (executeTask _ _ _ _ _ _ _) as [[r|e] w1]; cbn [fst];
      eexists _, _; (split; [reflexivity|]); (split; [reflexivity|]); cbn.
    + split; [by eexists|done].
    + split; [done|]. by intros [r Hr].
  - unfold AgentsController.executeWorkflow.
    destruct (executeWorkflow_resolves workflow w) as (response & w' & ->).
    by eexists _, _.
  - unfold AgentsController.getAgent, AgentsService.getAgent, mbind, ST_bind,
      mret, ST_ret, get_state.
    by destruct (getAgent type w).
Qed.

End Service.

Section Workflows.
Context {Any : Type} (env : Env Any).
Implicit Types (w : World Any) (log : list (StepEntry Any))
  (res : gmap string (AgentOutput Any)).

Lemma workflow_loop_critical name steps log res w log' res' w' :
  name ≠ "non-critical" →
  workflow_loop env name steps log res w = (Resolved (log', res'), w') →
  Forall (λ e, se_status e = completed ∧ is_Some (res !! ws_task (se_step e))) log →
  Forall (λ e, se_status e = completed ∧ is_Some (res' !! ws_task (se_step e))) log'.
Proof.
  intros Hname. revert log res w.
  induction steps as [|step rest IH]; intros log res w.
  { by intros [= <- <- <-]. }
  destruct (skips step res) eqn:Hs.
  - rewrite workflow_loop_skip by done. apply IH.
  - destruct (step_call env step res w) as [[result|message] w1] eqn:Hx.
    + rewrite (workflow_loop_completed env _ _ _ _ _ _ _ _ Hs Hx).
      intros Hloop Hlog. apply (IH _ _ _ Hloop).
      apply Forall_app. split.
      * eapply Forall_impl; [exact Hlog|]. intros e [He Hkey]. split; [done|].
        destruct (decide (ws_task step = ws_task (se_step e))) as [->|Hne].
        -- rewrite lookup_insert_eq. by eexists.
        -- by rewrite lookup_insert_ne.
      * constructor; [|constructor]. split; [done|]. cbn.
        rewrite lookup_insert_eq. by eexists.
    + rewrite (workflow_loop_failed env _ _ _ _ _ _ _ _ Hs Hx).
      by rewrite bool_decide_true.
Qed.

(** X14. A workflow not named "non-critical" either aborts or returns a
    report without failures: [failedSteps] is 0, every entry of the step
    log is completed, [completedSteps] is the length of the log, and the
    task string of every entry is a key of the results map. *)
Theorem critical_report_has_no_failure workflow w report w' :
  wf_name workflow ≠ "non-critical" →
  orchestrateWorkflow env workflow w = (Resolved report, w') →
  rep_failedSteps report = 0%nat ∧
  rep_completedSteps report = length (rep_steps report) ∧
  Forall (λ e, se_status e = completed) (rep_steps report) ∧
  ∀ e, e ∈ rep_steps report → is_Some (rep_results report !! ws_task (se_step e)).
Proof.
  intros Hname. rewrite orchestrateWorkflow_loop.
  destruct (workflow_loop _ _ _ _ _ _) as [[[log res]|message] w1] eqn:Hloop; [|done].
  intros [= <- <-]. cbn.
  pose proof (workflow_loop_critical _ _ _ _ _ _ _ _ Hname Hloop (Forall_nil_2 _)) as Hall.
  assert (count_status failed log = 0%nat ∧ count_status completed log = length log)
    as [Hf Hc].
  { unfold count_status. clear Hloop.
    induction Hall as [|e l [He _] _ [IHf IHc]]; [done|].
    cbn [List.filter]. rewrite He.
    rewrite bool_decide_false, bool_decide_true by done. cbn [length].
    by rewrite IHc. }
  split_and!; [done|done| |].
  - eapply Forall_impl; [exact Hall|]. by intros e [He _].
  - intros e He. by apply (proj1 (Forall_forall _ _) Hall e He).
Qed.

Lemma count_status_snoc s log (e : StepEntry Any) :
  count_status s (log ++ [e])
  = (count_status s log + if bool_decide (se_status e = s) then 1 else 0)%nat.
Proof.
  unfold count_status. rewrite List.filter_app, length_app. cbn [List.filter].
  by destruct (bool_decide (se_status e = s)).
Qed.

Lemma results_of_log_keys log key :
  Forall logged log →
  is_Some (results_of_log log !! key) ↔
  ∃ e, e ∈ log ∧ se_status e = completed ∧ ws_task (se_step e) = key.
Proof.
  induction log as [|e log IH] using rev_ind; intros Hlog.
  { unfold results_of_log. cbn. rewrite lookup_empty. split.
    - by intros [? ?].
    - intros (e & He & _). by apply not_elem_of_nil in He. }
  apply Forall_app in Hlog as [Hlog He]. apply Forall_inv in He.
  rewrite results_of_log_snoc. specialize (IH Hlog).
  assert ((∃ e0, e0 ∈ log ++ [e] ∧ se_status e0 = completed ∧ ws_task (se_step e0) = key)
          ↔ (is_Some (results_of_log log !! key) ∨
             (se_status e = completed ∧ ws_task (se_step e) = key))) as ->.
  { rewrite IH. split.
    - intros (e0 & Hin & Hst & Hk). apply elem_of_app in Hin as [Hin|Hin].
      + left. by exists e0.
      + apply list_elem_of_singleton in Hin as ->. by right.
    - intros [(e0 & Hin & Hst & Hk)|[Hst Hk]].
      + exists e0. split; [apply elem_of_app; by left|done].
      + exists e. split; [apply elem_of_app; right; by apply list_elem_of_singleton|done]. }
  unfold logged in He. destruct He as [[Hst (r & Hr & _)]|[Hst _]]; rewrite Hst.
  - rewrite Hr. destruct (decide (ws_task (se_step e) = key)) as [<-|Hne].
    + rewrite lookup_insert_eq. split; [by right|by eexists].
    + rewrite lookup_insert_ne by done. split; [by left|]. by intros [?|[_ ?]].
  - split; [by left|]. by intros [?|[? _]].
Qed.

Lemma results_of_log_size log :
  (size (results_of_log log) ≤ count_status completed log)%nat.
Proof.
  induction log as [|e log IH] using rev_ind; [done|].
  rewrite results_of_log_snoc, count_status_snoc.
  destruct (se_status e) eqn:Hst;
    rewrite ?bool_decide_true, ?bool_decide_false by done; try lia.
  destruct (se_result e); [|lia].
  destruct (results_of_log log !! ws_task (se_step e)) eqn:Hk.
  - rewrite map_size_insert_Some by done. lia.
  - rewrite map_size_insert_None by done. lia.
Qed.

(** X15. The keys of the results map of a report are exactly the task
    strings of the completed entries of its step log, so the map never has
    more entries than [completedSteps] (it has fewer when completed steps
    share a task string). *)
Theorem results_keys_are_completed_tasks workflow w report w' :
  orchestrateWorkflow env workflow w = (Resolved report, w') →
  (∀ key,
     is_Some (rep_results report !! key) ↔
     ∃ e, e ∈ rep_steps report ∧ se_status e = completed ∧ ws_task (se_step e) = key) ∧
  (size (rep_results report) ≤ rep_completedSteps report)%nat.
Proof.
  rewrite orchestrateWorkflow_loop.
  destruct (workflow_loop _ _ _ _ _ _) as [[[log res]|message] w1] eqn:Hloop; [|done].
  intros [= <- <-]. cbn.
  rewrite (workflow_loop_results env _ _ _ _ _ _ _ _ Hloop eq_refl).
  pose proof (workflow_loop_statuses env _ _ _ _ _ _ _ _ Hloop (Forall_nil_2 _)) as Hlog.
  split; [|apply results_of_log_size].
  intros key. by apply results_of_log_keys.
Qed.

Lemma count_status_without_condition s log :
  count_status s (entry_without_condition <$> log) = count_status s log.
Proof.
  unfold count_status. induction log as [|e log IH]; [done|].
  cbn. destruct (bool_decide (se_status e = s)); cbn; by rewrite IH.
Qed.

Lemma workflow_loop_without_condition name steps log res w :
  workflow_loop env name (without_condition <$> steps)
    (entry_without_condition <$> log) res w
  = match workflow_loop env name steps log res w with
    | (Resolved (log', res'), w') =>
        (Resolved (entry_without_condition <$> log', res'), w')
    | (Rejected message, w') => (Rejected message, w')
    end.
Proof.
  revert log res w. induction steps as [|step rest IH]; intros log res w; [done|].
  cbn [fmap list_fmap].
  change (list_fmap _ _ without_condition rest) with (without_condition <$> rest).
  assert (skips (without_condition step) res = skips step res) as Hskip by done.
  destruct (skips step res) eqn:Hs.
  - rewrite !workflow_loop_skip by done. apply IH.
  - destruct (step_call env step res w) as [[result|message] w1] eqn:Hx.
    + rewrite (workflow_loop_completed env _ _ _ _ _ _ _ _ Hs Hx).
      rewrite (workflow_loop_completed env name (without_condition step) _ _ _ _
                 result w1 Hskip Hx).
      rewrite <- IH. by rewrite fmap_app.
    + rewrite (workflow_loop_failed env _ _ _ _ _ _ _ _ Hs Hx).
      rewrite (workflow_loop_failed env name (without_condition step) _ _ _ _
                 message w1 Hskip Hx).
      case_bool_decide; [done|]. rewrite <- IH. by rewrite fmap_app.
Qed.

(** X16. The [condition] of a step is never read: a workflow run without
    its conditions calls the same executors, leaves the same world, aborts
    with the same error or returns the same report (name, counts, results
    map), the step log differing only by the conditions inside the logged
    steps. *)
Theorem condition_is_ignored workflow w :
  orchestrateWorkflow env
    {| wf_name := wf_name workflow;
       wf_steps := without_condition <$> wf_steps workflow |} w
  = match orchestrateWorkflow env workflow w with
    | (Resolved report, w') =>
        (Resolved {| rep_workflow := rep_workflow report;
                     rep_totalSteps := rep_totalSteps report;
                     rep_completedSteps := rep_completedSteps report;
                     rep_failedSteps := rep_failedSteps report;
                     rep_results := rep_results report;
                     rep_steps := entry_without_condition <$> rep_steps report |}, w')
    | (Rejected message, w') => (Rejected message, w')
    end.
Proof.
  rewrite !orchestrateWorkflow_loop. cbn [wf_name wf_steps].
  pose proof (workflow_loop_without_condition (wf_name workflow) (wf_steps workflow)
                [] ∅ w) as Hloop.
  cbn [fmap list_fmap] in Hloop.
  change (list_fmap _ _ without_condition (wf_steps workflow))
    with (without_condition <$> wf_steps workflow) in Hloop.
  rewrite Hloop.
  destruct (workflow_loop env (wf_name workflow) (wf_steps workflow) [] ∅ w)
    as [[[log res]|message] w1]; [|done].
  cbn. by rewrite !count_status_without_condition, length_fmap.
Qed.

End Workflows.

Section Scope.
Context {Any : Type} (env : Env Any).
Implicit Types (w : World Any).

Lemma written_app r (e1 e2 : list (Event Any)) :
  written r (e1 ++ e2) ↔ written r e1 ∨ written r e2.
Proof.
  unfold written. setoid_rewrite elem_of_app. split.
  - intros [[?|?]|[m [?|?]]]; eauto.
  - intros [[?|[m ?]]|[?|[m ?]]]; eauto.
Qed.

Lemma executeTask_scope agentType task context projectId taskId w :
  ∃ events,
    trace (executeTask env agentType task context projectId taskId w).2
    = trace w ++ events ∧
    ∀ r, written r events → ae_taskId r = taskId ∧ ae_projectId r = projectId.
Proof.
  destruct (getAgent agentType w) as [agent|] eqn:Hget.
  - rewrite (executeTask_registered env _ _ _ _ _ _ _ Hget).
    destruct (processTask_scope env agent
                (built_input env task context projectId taskId (tick w))
                (wrapper_start w)) as (events & Htrace & Hscope).
    exists events. split; [|exact Hscope].
    destruct (processTask _ _ _ _) as [[r|e] w']; cbn [snd] in *; [|done].
    by destruct (out_success r).
  - rewrite executeTask_not_found by done. exists []. split.
    + cbn. by rewrite app_nil_r.
    + intros r [Hin|[m Hin]]; by apply not_elem_of_nil in Hin.
Qed.

Lemma workflow_loop_scope name steps log res w :
  ∃ events,
    trace (workflow_loop env name steps log res w).2 = trace w ++ events ∧
    ∀ r, written r events → ae_taskId r = None ∧ ae_projectId r = None.
Proof.
  revert log res w. induction steps as [|step rest IH]; intros log res w.
  { exists []. split; [cbn; by rewrite app_nil_r|].
    intros r [Hin|[m Hin]]; by apply not_elem_of_nil in Hin. }
  destruct (skips step res) eqn:Hs.
  - rewrite workflow_loop_skip by done. apply IH.
  - destruct (executeTask_scope (ws_agentType step) (ws_task step)
                (Some (previousResults env res)) None None w)
      as (e1 & Htrace1 & Hscope1).
    destruct (step_call env step res w) as [[result|message] w1] eqn:Hx;
      cbn [snd] in Htrace1.
    + rewrite (workflow_loop_completed env _ _ _ _ _ _ _ _ Hs Hx).
      destruct (IH (log ++ [completed_entry step result])
                  (<[ws_task step := result]> res) w1) as (e2 & -> & Hscope2).
      exists (e1 ++ e2). rewrite Htrace1, app_assoc. split; [done|].
      intros r [?|?]%written_app; auto.
    + rewrite (workflow_loop_failed env _ _ _ _ _ _ _ _ Hs Hx).
      case_bool_decide.
      * exists e1. by split.
      * destruct (IH (log ++ [failed_entry step message]) res w1)
          as (e2 & -> & Hscope2).
        exists (e1 ++ e2). rewrite Htrace1, app_assoc. split; [done|].
        intros r [?|?]%written_app; auto.
Qed.

(** X17. The execution records of workflow steps carry no scope: every
    record handed to the store while [orchestrateWorkflow] runs has neither
    a [taskId] nor a [projectId], since the loop calls [executeTask] with
    the accumulated results as only context. *)
Theorem workflow_records_have_no_scope workflow w r :
  written r (events_since w (orchestrateWorkflow env workflow w).2) →
  ae_taskId r = None ∧ ae_projectId r = None.
Proof.
  rewrite orchestrateWorkflow_loop.
  destruct (workflow_loop_scope (wf_name workflow) (wf_steps workflow) [] ∅ w)
    as (events & Htrace & Hscope).
  assert (events_since w (workflow_loop env (wf_name workflow) (wf_steps workflow)
                            [] ∅ w).2 = events) as Hevents.
  { unfold events_since. by rewrite Htrace, drop_app_length. }
  destruct (workflow_loop _ _ _ _ _ _) as [[[log res]|message] w1];
    cbn [snd] in *; rewrite Hevents; apply Hscope.
Qed.

End Scope.

(** * The further properties on concrete cases *)

(** The store goes down after the [running] write: the two records it then
    rejects are still the row of the [running] one. *)
Lemma rejected_writes_are_the_same_row :
  ∃ r,
    EvSaveFailed r "store down"
      ∈ events_since empty_world
          (processTask unreliable succeeding (task "A") empty_world).2 ∧
    ae_status r = failed ∧
    ae_id r = uuidv4 unreliable 1 ∧
    ae_agentType r = cfg_type (config succeeding) ∧
    ae_startedAt r = Date_now unreliable 2.
Proof.
  pose proof (records_keep_identity unreliable succeeding (task "A") empty_world) as Hid.
  destruct (processTask unreliable succeeding (task "A") empty_world) as [o w'] eqn:Hrun.
  vm_compute in Hrun. injection Hrun as <- <-.
  unfold events_since in *. cbn [snd trace length drop empty_world] in *.
  match type of Hid with
  | ∀ r, written r [_; _; _; EvSaveFailed ?r3 ?m] → _ =>
      destruct (Hid r3 ltac:(right; exists m; do 3 apply list_elem_of_further;
                             apply list_elem_of_here))
        as (Hi & Hty & _ & _ & _ & _ & Hstart);
      exists r3
  end.
  split_and!; [do 3 apply list_elem_of_further; apply list_elem_of_here
              |reflexivity|exact Hi|exact Hty|exact Hstart].
Defined.

(** With the store down after the [running] write, the wrapper throws the
    store's error, and the last event is the rejected [failed] record. *)
Lemma store_rejection_is_thrown :
  (processTask unreliable succeeding (task "A") empty_world).1 = Rejected "store down" ∧
  ∃ earlier r,
    events_since empty_world (processTask unreliable succeeding (task "A") empty_world).2
    = earlier ++ [EvSaveFailed r "store down"] ∧
    ae_status r = failed ∧ is_Some (ae_error r).
Proof.
  destruct (processTask unreliable succeeding (task "A") empty_world) as [o w'] eqn:Hrun.
  assert (o = Rejected "store down") as ->.
  { pose proof Hrun as Hc. vm_compute in Hc. injection Hc as <- _. reflexivity. }
  split; [reflexivity|].
  exact (processTask_throws_only_on_rejected_write unreliable succeeding (task "A")
           empty_world "store down" w' Hrun).
Defined.

(** The input of the task "cycle" does not serialize under [strict]. *)
Lemma cycle_leaves_no_record :
  ∃ out w',
    processTask Cases.strict succeeding (task "cycle") empty_world = (Resolved out, w') ∧
    trace w' = trace empty_world ∧
    out_success out = false ∧
    out_error out = Some "Converting circular structure to JSON" ∧
    out_agentExecutionId out = None.
Proof.
  exact (unserializable_input_leaves_no_record Cases.strict succeeding (task "cycle")
           empty_world "Converting circular structure to JSON" eq_refl).
Defined.

(** A returned failure: the result carries the id of a record the store
    holds as [failed]. *)
Lemma failed_result_matches_record :
  ∃ out w' id r,
    processTask reliable failing (task "A") empty_world = (Resolved out, w') ∧
    out_agentExecutionId out = Some id ∧
    out_success out = false ∧
    stored (events_since empty_world w') id = Some r ∧
    ae_status r = failed.
Proof.
  destruct (processTask reliable failing (task "A") empty_world)
    as [[out|message] w'] eqn:Hrun; [|vm_compute in Hrun; discriminate].
  assert (∃ id, out_agentExecutionId out = Some id ∧ out_success out = false)
    as (id & Hid & Hsuccess).
  { pose proof Hrun as Hc. vm_compute in Hc. injection Hc as Hout _.
    rewrite <- Hout. eexists. split; reflexivity. }
  destruct (resolved_result_matches_stored_record reliable failing (task "A")
              empty_world out w' id Hrun Hid) as (r & Hstored & _ & Hstatus & _).
  rewrite Hsuccess in Hstatus.
  exists out, w', id, r. split_and!; [reflexivity|exact Hid|exact Hsuccess
                                      |exact Hstored|exact Hstatus].
Defined.

(** The registry after [onModuleInit] with a disabled reviewer. *)
Lemma disabled_reviewer_stays_out :
  only_enabled (onModuleInit Cases.five empty_world).2 ∧
  getAgent "review" (onModuleInit Cases.five empty_world).2 = None ∧
  Forall (λ c, cfg_enabled c = true)
    (getAvailableAgents (onModuleInit Cases.five empty_world).2).
Proof.
  assert (only_enabled (empty_world : World string)) as Hempty.
  { intros type agent Hget. unfold getAgent in Hget. cbn in Hget.
    rewrite lookup_empty in Hget. discriminate Hget. }
  destruct (registry_holds_only_enabled "review" disabled Cases.five empty_world Hempty)
    as (_ & Hinit & _).
  destruct (registry_holds_only_enabled "review" disabled Cases.five
              (onModuleInit Cases.five empty_world).2 Hinit) as (_ & _ & _ & Hlist).
  split_and!; [exact Hinit|reflexivity|exact Hlist].
Defined.

(** An agent registered under "__proto__" is found by [getAgent] and listed
    by [getAvailableAgents], and the status object has no property for
    it. *)
Lemma proto_agent_has_no_status :
  is_Some (getAgent "__proto__" Cases.proto_world) ∧
  getAgentStatus Cases.proto_world !! "__proto__" = None ∧
  size (getAgentStatus Cases.proto_world) = 1%nat ∧
  length (getAvailableAgents Cases.proto_world) = 2%nat.
Proof.
  destruct (listings_agree_with_registry Cases.proto_world)
    as (_ & Hproto & Hsize & Hlen & _).
  split_and!; [by eexists|exact Hproto| |].
  - rewrite Hsize. by vm_compute.
  - rewrite Hlen. by vm_compute.
Defined.

(** A batch of three requests, one of which returns. *)
Lemma batch_counts_add_up :
  ∃ results w',
    executeTasks reliable [] [request "ok" "A"; request "none" "B"; request "bad" "C"] w0
    = (Resolved results, w') ∧
    entry_success <$> results = [true; false; false] ∧
    (length (List.filter entry_success results)
     + length (List.filter (λ r, negb (entry_success r)) results) = 3)%nat.
Proof.
  destruct (executeTasks reliable []
              [request "ok" "A"; request "none" "B"; request "bad" "C"] w0)
    as [[results|message] w'] eqn:Hrun; [|vm_compute in Hrun; discriminate].
  destruct (batch_success_flags reliable [] _ w0 results w' Hrun) as (_ & _ & Hcount).
  exists results, w'. split_and!; [reflexivity| |exact Hcount].
  pose proof Hrun as Hc. vm_compute in Hc. injection Hc as Hres _.
  rewrite <- Hres. reflexivity.
Defined.

(** An update that disables "ok" is answered with a disabled configuration,
    and the agent stays enabled. *)
Lemma update_disables_nothing :
  ∃ response w',
    AgentsService.updateAgentConfig reliable "ok"
      {| AgentsService.p_name := None; AgentsService.p_type := None;
         AgentsService.p_enabled := Some false; AgentsService.p_role := None;
         AgentsService.p_description := None; AgentsService.p_timeout := None;
         AgentsService.p_retryAttempts := None;
         AgentsService.p_maxConcurrent := None |} w0
    = (Resolved response, w') ∧
    cfg_enabled (AgentsService.ur_updatedConfig response) = false ∧
    (AgentsService.getAgent "ok" w').1 = Resolved (Some (cfg "ok" true)).
Proof.
  pose proof (updateAgentConfig_is_not_persisted reliable "ok"
                {| AgentsService.p_name := None; AgentsService.p_type := None;
                   AgentsService.p_enabled := Some false; AgentsService.p_role := None;
                   AgentsService.p_description := None; AgentsService.p_timeout := None;
                   AgentsService.p_retryAttempts := None;
                   AgentsService.p_maxConcurrent := None |} w0) as Hupdate.
  change (getAgent "ok" w0) with (Some succeeding) in Hupdate.
  destruct Hupdate as (response & w' & Hrun & Hconfig & _ & _ & Hget).
  exists response, w'. split_and!; [exact Hrun| |exact Hget].
  rewrite Hconfig. reflexivity.
Defined.

(** The example workflow is critical: its report has no failure. *)
Lemma spec_workflow_has_no_failure :
  ∃ report w',
    orchestrateWorkflow reliable spec_workflow w0 = (Resolved report, w') ∧
    rep_failedSteps report = 0%nat ∧
    rep_completedSteps report = length (rep_steps report) ∧
    Forall (λ e, se_status e = completed) (rep_steps report).
Proof.
  destruct (orchestrateWorkflow reliable spec_workflow w0)
    as [[report|message] w'] eqn:Hrun; [|vm_compute in Hrun; discriminate].
  assert (wf_name spec_workflow ≠ "non-critical") as Hname by discriminate.
  destruct (critical_report_has_no_failure reliable spec_workflow w0 report w' Hname Hrun)
    as (Hfailed & Hcompleted & Hall & _).
  exists report, w'. split_and!; [reflexivity|exact Hfailed|exact Hcompleted|exact Hall].
Defined.

(** In [repeated] three steps complete and two of them share the task
    string "A": the results map has two keys. *)
Lemma repeated_results_are_fewer :
  ∃ report w',
    orchestrateWorkflow reliable repeated w0 = (Resolved report, w') ∧
    (size (rep_results report) ≤ rep_completedSteps report)%nat ∧
    rep_completedSteps report = 3%nat ∧
    (is_Some (rep_results report !! "B") ↔
     ∃ e, e ∈ rep_steps report ∧ se_status e = completed ∧ ws_task (se_step e) = "B").
Proof.
  destruct (orchestrateWorkflow reliable repeated w0)
    as [[report|message] w'] eqn:Hrun; [|vm_compute in Hrun; discriminate].
  destruct (results_keys_are_completed_tasks reliable repeated w0 report w' Hrun)
    as [Hkeys Hsize].
  exists report, w'. split_and!; [reflexivity|exact Hsize| |exact (Hkeys "B")].
  pose proof Hrun as Hc. vm_compute in Hc. injection Hc as Hrep _.
  rewrite <- Hrep. reflexivity.
Defined.

(** A step with a condition runs like the same step without one. *)
Lemma conditional_step_runs :
  ∃ report w',
    orchestrateWorkflow reliable
      {| wf_name := "flow"; wf_steps := [Cases.conditional_A] |} w0
    = (Resolved report, w') ∧
    rep_completedSteps report = 1%nat ∧
    orchestrateWorkflow reliable {| wf_name := "flow"; wf_steps := [step_A] |} w0
    = (Resolved {| rep_workflow := rep_workflow report;
                   rep_totalSteps := rep_totalSteps report;
                   rep_completedSteps := rep_completedSteps report;
                   rep_failedSteps := rep_failedSteps report;
                   rep_results := rep_results report;
                   rep_steps := entry_without_condition <$> rep_steps report |}, w').
Proof.
  pose proof (condition_is_ignored reliable
                {| wf_name := "flow"; wf_steps := [Cases.conditional_A] |} w0) as Hsame.
  change (without_condition <$> wf_steps {| wf_name := "flow";
                                            wf_steps := [Cases.conditional_A] |})
    with [step_A] in Hsame.
  cbn [wf_name] in Hsame.
  destruct (orchestrateWorkflow reliable
              {| wf_name := "flow"; wf_steps := [Cases.conditional_A] |} w0)
    as [[report|message] w'] eqn:Hrun; [|vm_compute in Hrun; discriminate].
  exists report, w'. split_and!; [reflexivity| |exact Hsame].
  pose proof Hrun as Hc. vm_compute in Hc. injection Hc as Hrep _.
  rewrite <- Hrep. reflexivity.
Defined.

(** The four records of the example workflow have no scope. *)
Lemma spec_workflow_records_have_no_scope :
  Forall (λ r, ae_taskId r = None ∧ ae_projectId r = None)
    (writes (events_since w0 (orchestrateWorkflow reliable spec_workflow w0).2)) ∧
  length (writes (events_since w0 (orchestrateWorkflow reliable spec_workflow w0).2))
  = 4%nat.
Proof.
  split; [|by vm_compute].
  apply Forall_forall. intros r Hin.
  apply (workflow_records_have_no_scope reliable spec_workflow w0 r).
  left. unfold writes in Hin. apply list_elem_of_omap in Hin as (event & Hevent & Hsave).
  destruct event; try discriminate Hsave. injection Hsave as ->. exact Hevent.
Defined.
